(** * The agent registry of internal/agents/registry.go

    A shallow embedding of [Registry] (registration, deregistration and
    round-robin selection of agents by task type) and the properties of
    its indexes.

    The registry is used under its lock: every method reads and writes the
    three maps only while it holds [mu], and holds it until it returns, so
    a method is one atomic transition of the maps.  The embedding is that
    sequential transition system. *)

From Stdlib Require Import ZArith String List Sorted Permutation OrderedTypeEx.
From stdpp Require Import base option list gmap strings fin_maps.

Local Open Scope Z_scope.
Set Warnings "-clear-no-such-hyp".

(** ** Agents (agent.go)

    The registry calls only [Name] and [CanHandle] of the [Agent]
    interface, and both are read as pure observations of the agent.  A
    nil interface value is [None] of [option Agent]. *)

Record Agent : Type := mkAgent {
  Name : string;
  CanHandle : string → bool
}.

(** ** The registry state *)

Record Registry : Type := mkRegistry {
  byName : gmap string Agent;          (* agent name -> Agent *)
  byType : gmap string (list Agent);   (* taskType -> agents that can handle it *)
  rrIdx : gmap string Z                (* taskType -> next round-robin index *)
}.

Definition NewRegistry : Registry := mkRegistry ∅ ∅ ∅.

(** A Go [error] built by [errors.New]: its message, [None] for nil. *)
Definition error : Type := option string.

(** What a call does: it returns, or the runtime panics (an index out of
    range in [Select]). *)
Inductive outcome (A : Type) : Type :=
| Returned (x : A)
| Panicked.
Arguments Returned {A} x.
Arguments Panicked {A}.

(** Reading a missing key of a Go map gives the zero value. *)
Definition cursor (rr : gmap string Z) (t : string) : Z := default 0 (rr !! t).
Definition agentsOf (bt : gmap string (list Agent)) (t : string) : list Agent :=
  default [] (bt !! t).

(** [len] of a slice, a Go int. *)
Definition len {A} (l : list A) : Z := Z.of_nat (length l).

(** The keys of a map, in the order [map_to_list] happens to give.  A Go
    [range] over a map visits every key once in an unspecified order;
    where the order can matter ([Select], [List]) it is an argument of the
    model, and where every iteration touches only its own key ([Register],
    [Deregister]) the loops are folded over [keys], and
    [sort_loop_any_order] and [deregister_loop_any_order] show that every
    other order gives the same maps. *)
Definition keys {V} (m : gmap string V) : list string := (map_to_list m).*1.

(** ** dedupe *)

Fixpoint dedupe_from (seen : gset string) (in_ : list string) : list string :=
  match in_ with
  | [] => []
  | s :: rest =>
      if decide (s ∈ seen) then dedupe_from seen rest
      else s :: dedupe_from ({[s]} ∪ seen) rest
  end.

Definition dedupe (in_ : list string) : list string := dedupe_from ∅ in_.

(** ** sort.SliceStable by name

    [sort.SliceStable(l, less)] with [less i j := l[i].Name() < l[j].Name()]
    puts [l] in ascending order of names and keeps agents of equal name in
    their order: the stable insertion sort below ([a], which stood before
    all of [l], passes only the strictly smaller names).  Go compares
    strings byte by byte, as [String.ltb] does. *)

Definition lessName (a b : Agent) : bool := String.ltb (Name a) (Name b).

Fixpoint insertByName (a : Agent) (l : list Agent) : list Agent :=
  match l with
  | [] => [a]
  | b :: l' => if lessName b a then b :: insertByName a l' else a :: b :: l'
  end.

Definition sortByName (l : list Agent) : list Agent := foldr insertByName [] l.

(** ** Register *)

(** One round of the loop over [dedupe(taskTypes)]. *)
Definition index_type (a : Agent) (bt : gmap string (list Agent)) (t : string)
  : gmap string (list Agent) :=
  if CanHandle a t then <[t := agentsOf bt t ++ [a]]> bt else bt.

(** One round of the loop that sorts every sequence in place. *)
Definition sort_type (bt : gmap string (list Agent)) (t : string)
  : gmap string (list Agent) :=
  alter sortByName t bt.

Definition sort_loop (bt : gmap string (list Agent)) (order : list string)
  : gmap string (list Agent) :=
  foldl sort_type bt order.

Definition Register (a : option Agent) (taskTypes : list string) (r : Registry)
  : error * Registry :=
  match a with
  | None => (Some "nil agent"%string, r)
  | Some a =>
      let name := Name a in
      if decide (name = EmptyString) then
        (Some "agent must have a non-empty Name()"%string, r)
      else if decide (is_Some (byName r !! name)) then
        (Some ("agent already registered: " ++ name)%string, r)
      else
        let byName' := <[name := a]> (byName r) in
        let byType' := foldl (index_type a) (byType r) (dedupe taskTypes) in
        (None, mkRegistry byName' (sort_loop byType' (keys byType')) (rrIdx r))
  end.

(** ** Deregister *)

(** The in-place filter [newList := list[:0]; ... append(newList, ag)]:
    the write position never passes the read position, so the result is
    the agents of other names, in their order. *)
Definition removeNamed (name : string) (lst : list Agent) : list Agent :=
  filter (λ ag, Name ag ≠ name) lst.

(** One round of the loop over [byType]. *)
Definition deregister_type (name : string)
    (s : gmap string (list Agent) * gmap string Z) (t : string)
  : gmap string (list Agent) * gmap string Z :=
  match s.1 !! t with
  | None => s
  | Some lst =>
      let newList := removeNamed name lst in
      if decide (len newList = 0) then (delete t s.1, delete t s.2)
      else
        (<[t := newList]> s.1,
         if decide (len newList ≤ cursor s.2 t) then <[t := 0]> s.2 else s.2)
  end.

Definition deregister_loop (name : string)
    (s : gmap string (list Agent) * gmap string Z) (order : list string)
  : gmap string (list Agent) * gmap string Z :=
  foldl (deregister_type name) s order.

Definition Deregister (name : string) (r : Registry) : bool * Registry :=
  match byName r !! name with
  | None => (false, r)
  | Some _ =>
      let s := deregister_loop name (byType r, rrIdx r) (keys (byType r)) in
      (true, mkRegistry (delete name (byName r)) s.1 s.2)
  end.

(** ** Get *)

Definition Get (name : string) (r : Registry) : option Agent := byName r !! name.

(** ** Select

    [order] is the order in which [range r.byName] visits the names in the
    fallback scan. *)

Definition scan_step (r : Registry) (taskType : string)
    (lst : list Agent) (k : string) : list Agent :=
  match byName r !! k with
  | Some a => if CanHandle a taskType then lst ++ [a] else lst
  | None => lst
  end.

(** The round-robin step on a non-empty [lst] (the source's [list]).  Go's
    [%] truncates, as [Z.rem]; [list[i]] panics unless [0 <= i < len(list)].
    [i + 1] is at most [len(list)], so it does not overflow. *)
Definition select_rr (taskType : string) (lst : list Agent) (r : Registry)
  : outcome (option Agent * Registry) :=
  let i := Z.rem (cursor (rrIdx r) taskType) (len lst) in
  if decide (0 ≤ i) then
    match lst !! Z.to_nat i with
    | Some a =>
        Returned (Some a,
                  mkRegistry (byName r) (byType r)
                    (<[taskType := Z.rem (i + 1) (len lst)]> (rrIdx r)))
    | None => Panicked
    end
  else Panicked.

Definition Select (taskType : string) (order : list string) (r : Registry)
  : outcome (option Agent * Registry) :=
  let lst := agentsOf (byType r) taskType in
  if decide (len lst = 0) then
    let lst := foldl (scan_step r taskType) lst order in
    if decide (len lst = 0) then Returned (None, r)
    else
      select_rr taskType lst
        (mkRegistry (byName r) (<[taskType := lst]> (byType r)) (rrIdx r))
  else select_rr taskType lst r.

(** ** List

    [order] is the order of the [range] over [byName].  [sort.Slice] is
    not stable; the names of registered agents are distinct
    ([consistent_names_keyed]), and then every sort by name gives the list
    below. *)
Definition List (order : list string) (r : Registry) : list Agent :=
  sortByName (omap (λ k, byName r !! k) order).

(** ** Histories of calls *)

Inductive Op : Type :=
| OpRegister (a : option Agent) (taskTypes : list string)
| OpDeregister (name : string)
| OpGet (name : string)
| OpSelect (taskType : string) (order : list string)
| OpList (order : list string).

(** The registry after a completed call ([Get] and [List] only read). *)
Definition exec (op : Op) (r : Registry) : outcome Registry :=
  match op with
  | OpRegister a taskTypes => Returned (Register a taskTypes r).2
  | OpDeregister name => Returned (Deregister name r).2
  | OpGet _ => Returned r
  | OpSelect taskType order =>
      match Select taskType order r with
      | Returned res => Returned res.2
      | Panicked => Panicked
      end
  | OpList _ => Returned r
  end.

(** A [range] over [byName] visits exactly its keys. *)
Definition order_ok (op : Op) (r : Registry) : Prop :=
  match op with
  | OpSelect _ order | OpList order => order ≡ₚ keys (byName r)
  | _ => True
  end.

Inductive reachable : Registry → Prop :=
| reachable_new : reachable NewRegistry
| reachable_exec op r r' :
    reachable r → order_ok op r → exec op r = Returned r' → reachable r'.

(** ** The vocabulary of the properties *)

(** [a] may stand before [b]: the name of [b] is not below that of [a]. *)
Definition nameLe (a b : Agent) : Prop := lessName b a = false.

Definition sortedByName (l : list Agent) : Prop := Sorted nameLe l.

(** Every capability sequence is in ascending order of names. *)
Definition sorted_index (r : Registry) : Prop :=
  ∀ t lst, byType r !! t = Some lst → sortedByName lst.

(** The strings of [l] without repetition, each at its first place. *)
Fixpoint firstOccurrences (l : list string) : list string :=
  match l with
  | [] => []
  | s :: rest => s :: filter (λ x, x ≠ s) (firstOccurrences rest)
  end.

(** What [Deregister name] makes of the sequence and of the cursor of one
    task type. *)
Definition dereg_seq (name : string) (o : option (list Agent))
  : option (list Agent) :=
  match o with
  | None => None
  | Some lst =>
      if decide (len (removeNamed name lst) = 0) then None
      else Some (removeNamed name lst)
  end.

Definition dereg_cur (name : string) (o : option (list Agent)) (c : option Z)
  : option Z :=
  match o with
  | None => c
  | Some lst =>
      if decide (len (removeNamed name lst) = 0) then None
      else if decide (len (removeNamed name lst) ≤ default 0 c) then Some 0
      else c
  end.

(** The three conditions under which [Register] refuses an agent. *)
Definition refused (a : option Agent) (r : Registry) : Prop :=
  match a with
  | None => True
  | Some a => Name a = EmptyString ∨ is_Some (byName r !! Name a)
  end.

(** The consistency of the three indexes. *)
Record consistent (r : Registry) : Prop := {
  (* an agent is filed under its own name *)
  consistent_names_keyed :
    ∀ n a, byName r !! n = Some a → Name a = n;
  (* the agents of a sequence are registered *)
  consistent_registered :
    ∀ t lst a, byType r !! t = Some lst → a ∈ lst →
               byName r !! Name a = Some a;
  (* the agents of a sequence accept its task type *)
  consistent_capable :
    ∀ t lst a, byType r !! t = Some lst → a ∈ lst → CanHandle a t = true;
  (* no empty sequence is kept *)
  consistent_nonempty :
    ∀ t lst, byType r !! t = Some lst → lst ≠ [];
  (* a cursor belongs to a sequence and is an index into it *)
  consistent_cursor :
    ∀ t c, rrIdx r !! t = Some c →
           ∃ lst, byType r !! t = Some lst ∧ 0 ≤ c < len lst
}.

(** ** Example registries

    Two agents that accept "grade" and nothing else. *)

Definition agentA : Agent := mkAgent "a" (λ t, String.eqb t "grade").
Definition agentB : Agent := mkAgent "b" (λ t, String.eqb t "grade").

(** Both agents registered for the task type they accept. *)
Definition declared : Registry :=
  (Register (Some agentB) ["grade"%string]
     (Register (Some agentA) ["grade"%string] NewRegistry).2).2.

(** [declared] after one selection of "grade": the cursor of "grade"
    stands on the second agent. *)
Definition declared_selected : Registry :=
  match Select "grade" ["a"; "b"]%string declared with
  | Returned res => res.2
  | Panicked => declared
  end.

(** Both agents registered without task types. *)
Definition undeclared : Registry :=
  (Register (Some agentB) [] (Register (Some agentA) [] NewRegistry).2).2.

(** [undeclared] after a selection of "grade" whose scan met "b" before
    "a". *)
Definition undeclared_selected : Registry :=
  match Select "grade" ["b"; "a"]%string undeclared with
  | Returned res => res.2
  | Panicked => undeclared
  end.

(** ** Sequences of selections and further vocabulary *)

(** A caller that selects for [taskType] once per element of [orders]
    (the order of the fallback scan of each call), collecting what the
    calls return. *)
Fixpoint SelectMany (taskType : string) (orders : list (list string))
    (r : Registry) : outcome (list (option Agent) * Registry) :=
  match orders with
  | [] => Returned ([], r)
  | order :: orders' =>
      match Select taskType order r with
      | Returned res =>
          match SelectMany taskType orders' res.2 with
          | Returned rest => Returned (res.1 :: rest.1, rest.2)
          | Panicked => Panicked
          end
      | Panicked => Panicked
      end
  end.

(** What the fallback scan of [Select] collects: the registered agents
    that accept [taskType], in the order of the scan. *)
Definition discovered (r : Registry) (taskType : string) (order : list string)
  : list Agent :=
  omap (λ k, match byName r !! k with
             | Some a => if CanHandle a taskType then Some a else None
             | None => None
             end) order.

(** The agents of every capability sequence have pairwise distinct
    names. *)
Definition distinct_index (r : Registry) : Prop :=
  ∀ t lst, byType r !! t = Some lst → NoDup (Name <$> lst).

(** The registered agents in the order of a scan of the name index. *)
Definition scanned (r : Registry) (order : list string) : list Agent :=
  omap (λ k, byName r !! k) order.

(** Only [agentA] registered, for "grade". *)
Definition solo : Registry :=
  (Register (Some agentA) ["grade"%string] NewRegistry).2.

(** An agent that accepts every task type. *)
Definition agentC : Agent := mkAgent "c" (λ _, true).

(** [declared_selected] with a third agent, registered for two task
    types. *)
Definition two_types : Registry :=
  (Register (Some agentC) ["grade"; "notify"]%string declared_selected).2.

(** Three agents registered for "grade". *)
Definition three : Registry :=
  (Register (Some agentC) ["grade"%string] declared).2.

(** [three] after one selection: the cursor stands on the second agent. *)
Definition three_selected : Registry :=
  match Select "grade" (keys (byName three)) three with
  | Returned res => res.2
  | Panicked => three
  end.

(** * Properties *)

(** ** The order of names *)

Lemma lessName_asym a b : lessName a b = true → lessName b a = false.
Proof.
  unfold lessName, String.ltb. rewrite (String.compare_antisym (Name a)).
  by destruct (String.compare (Name b) (Name a)).
Qed.

Lemma lessName_total a b :
  Name a ≠ Name b → lessName a b = true ∨ lessName b a = true.
Proof.
  intros Hne. unfold lessName, String.ltb.
  rewrite (String.compare_antisym (Name a)).
  destruct (String.compare (Name b) (Name a)) eqn:Hc; simpl; auto.
  apply String.compare_eq_iff in Hc. congruence.
Qed.

Lemma lessName_irrefl a b : Name a = Name b → lessName a b = false.
Proof.
  intros Heq. destruct (lessName a b) eqn:Hl; [|done].
  pose proof (lessName_asym _ _ Hl) as Hl'.
  unfold lessName in *. rewrite Heq in *. congruence.
Qed.

(** ** The stable sort *)

Lemma insertByName_perm a l : insertByName a l ≡ₚ a :: l.
Proof.
  induction l as [|b l IH]; simpl; [done|].
  destruct (lessName b a); [|done].
  rewrite IH. apply perm_swap.
Qed.

Lemma sortByName_perm l : sortByName l ≡ₚ l.
Proof.
  induction l as [|a l IH]; simpl; [done|].
  by rewrite insertByName_perm, IH.
Qed.

Lemma insertByName_hd a c l :
  nameLe c a → HdRel nameLe c l → HdRel nameLe c (insertByName a l).
Proof.
  intros Hca Hcl. destruct l as [|b l]; simpl; [by constructor|].
  destruct (lessName b a); constructor; [by inversion Hcl|done].
Qed.

Lemma insertByName_sorted a l :
  sortedByName l → sortedByName (insertByName a l).
Proof.
  unfold sortedByName. induction 1 as [|b l Hs IH Hhd]; simpl.
  - by repeat constructor.
  - destruct (lessName b a) eqn:Hba.
    + constructor; [done|].
      apply insertByName_hd; [|done]. by apply lessName_asym.
    + constructor; [by constructor|]. by constructor.
Qed.

Lemma sortByName_sorted l : sortedByName (sortByName l).
Proof.
  induction l as [|a l IH]; simpl; [constructor|].
  by apply insertByName_sorted.
Qed.

Lemma sortByName_elem_of a l : a ∈ sortByName l ↔ a ∈ l.
Proof. by rewrite sortByName_perm. Qed.

Lemma sortByName_length l : length (sortByName l) = length l.
Proof. by rewrite sortByName_perm. Qed.

Lemma sortByName_nil_inv l : sortByName l = [] → l = [].
Proof.
  intros H. apply length_zero_iff_nil.
  by rewrite <- sortByName_length, H.
Qed.

(** A sorted sequence is left as it is. *)
Lemma insertByName_sorted_cons a l :
  sortedByName (a :: l) → insertByName a l = a :: l.
Proof.
  intros Hs. destruct l as [|b l]; simpl; [done|].
  apply Sorted_inv in Hs as [_ Hhd]. apply HdRel_inv in Hhd.
  unfold nameLe in Hhd. by rewrite Hhd.
Qed.

Lemma sortByName_sorted_id l : sortedByName l → sortByName l = l.
Proof.
  induction l as [|a l IH]; intros Hs; simpl; [done|].
  rewrite IH by (by apply Sorted_inv in Hs as [? _]).
  by apply insertByName_sorted_cons.
Qed.

Lemma ltb_trans s1 s2 s3 :
  String.ltb s1 s2 = true → String.ltb s2 s3 = true → String.ltb s1 s3 = true.
Proof.
  unfold String.ltb.
  destruct (String.compare s1 s2) eqn:E12; [done| |done].
  destruct (String.compare s2 s3) eqn:E23; [done| |done].
  intros _ _. apply String_as_OT.cmp_lt in E12, E23.
  pose proof (String_as_OT.lt_trans _ _ _ E12 E23) as E13.
  apply String_as_OT.cmp_lt in E13. unfold String_as_OT.cmp in E13.
  by rewrite E13.
Qed.

Lemma nameLe_trans : Transitive nameLe.
Proof.
  intros a b c Hab Hbc. unfold nameLe in *.
  destruct (lessName c a) eqn:Hca; [|done].
  destruct (decide (Name a = Name b)) as [Heq|Hne].
  - unfold lessName in *. rewrite Heq in Hca. congruence.
  - destruct (lessName_total a b Hne) as [Hlt|Hlt]; [|congruence].
    unfold lessName in *.
    pose proof (ltb_trans _ _ _ Hca Hlt). congruence.
Qed.

(** Taking agents out of a sorted sequence leaves it sorted. *)
Lemma removeNamed_sorted name lst :
  sortedByName lst → sortedByName (removeNamed name lst).
Proof.
  unfold sortedByName, removeNamed. intros Hs.
  apply (Sorted_StronglySorted nameLe_trans) in Hs.
  apply StronglySorted_Sorted.
  induction Hs as [|a l Hs IH Hall]; [constructor|].
  rewrite filter_cons. case_decide; [|done].
  constructor; [done|]. rewrite Forall_forall in *.
  intros x [_ Hx]%list_elem_of_filter. by apply Hall.
Qed.

(** ** dedupe keeps the first occurrence of every string *)

Lemma dedupe_from_firstOccurrences seen l :
  dedupe_from seen l = filter (λ x, x ∉ seen) (firstOccurrences l).
Proof.
  revert seen. induction l as [|s rest IH]; intros seen; simpl; [done|].
  destruct (decide (s ∈ seen)) as [Hin|Hnin].
  - rewrite filter_cons_False by (intros H; by apply H).
    rewrite IH, list_filter_filter.
    apply list_filter_iff. intros x. split; [|tauto].
    intros Hx. split; [done|]. intros ->. done.
  - rewrite filter_cons_True by done. f_equal.
    rewrite IH, list_filter_filter.
    apply list_filter_iff. intros x. set_solver.
Qed.

Lemma dedupe_firstOccurrences l : dedupe l = firstOccurrences l.
Proof.
  unfold dedupe. rewrite dedupe_from_firstOccurrences.
  induction (firstOccurrences l) as [|x l' IH]; [done|].
  rewrite filter_cons_True by set_solver. by f_equal.
Qed.

Lemma firstOccurrences_elem_of x l : x ∈ firstOccurrences l ↔ x ∈ l.
Proof.
  induction l as [|s rest IH]; simpl; [done|].
  rewrite !elem_of_cons, list_elem_of_filter, IH.
  destruct (decide (x = s)); naive_solver.
Qed.

Lemma firstOccurrences_NoDup l : NoDup (firstOccurrences l).
Proof.
  induction l as [|s rest IH]; simpl; constructor.
  - rewrite list_elem_of_filter. naive_solver.
  - by apply NoDup_filter.
Qed.

Lemma dedupe_elem_of x l : x ∈ dedupe l ↔ x ∈ l.
Proof. rewrite dedupe_firstOccurrences. apply firstOccurrences_elem_of. Qed.

Lemma dedupe_NoDup l : NoDup (dedupe l).
Proof. rewrite dedupe_firstOccurrences. apply firstOccurrences_NoDup. Qed.

(** ** The loops of Register and Deregister, key by key *)

Lemma keys_NoDup {V} (m : gmap string V) : NoDup (keys m).
Proof. apply NoDup_fst_map_to_list. Qed.

Lemma elem_of_keys {V} (m : gmap string V) k : k ∈ keys m ↔ is_Some (m !! k).
Proof.
  unfold keys. rewrite list_elem_of_fmap. split.
  - intros [[k' v] [-> Hin]]. apply elem_of_map_to_list in Hin. by exists v.
  - intros [v Hv]. exists (k, v). split; [done|]. by apply elem_of_map_to_list.
Qed.

Lemma order_NoDup {V} (m : gmap string V) order : order ≡ₚ keys m → NoDup order.
Proof. intros ->. apply keys_NoDup. Qed.

Lemma elem_of_order {V} (m : gmap string V) order k :
  order ≡ₚ keys m → k ∈ order ↔ is_Some (m !! k).
Proof. intros ->. apply elem_of_keys. Qed.

Lemma foldl_step {A B} (f : A → B → A) a x l :
  foldl f a (x :: l) = foldl f (f a x) l.
Proof. reflexivity. Qed.

Lemma foldl_done {A B} (f : A → B → A) a : foldl f a [] = a.
Proof. reflexivity. Qed.

(** After the loop over distinct task types, the agent stands at the end
    of the sequences of the types it accepts, and nothing else changed. *)
Lemma index_loop_lookup a ts bt t :
  NoDup ts →
  foldl (index_type a) bt ts !! t =
    if decide (t ∈ ts ∧ CanHandle a t = true)
    then Some (agentsOf bt t ++ [a]) else bt !! t.
Proof.
  intros Hnd. revert bt.
  induction Hnd as [|k ts Hk Hnd IH]; intros bt.
  - rewrite foldl_done, decide_False; [done|]. intros [[]%elem_of_nil _].
  - rewrite foldl_step, IH. unfold index_type, agentsOf.
    destruct (decide (t = k)) as [->|Hne].
    + rewrite (decide_False (P := k ∈ ts ∧ _)) by tauto.
      destruct (CanHandle a k) eqn:Hc.
      * rewrite lookup_insert_eq. rewrite decide_True; [done|].
        split; [by left|done].
      * rewrite decide_False; [done|]. intros [_ ?]; done.
    + assert (Hlk : (if CanHandle a k
                     then <[k := default [] (bt !! k) ++ [a]]> bt else bt) !! t
                    = bt !! t).
      { destruct (CanHandle a k); [by rewrite lookup_insert_ne|done]. }
      rewrite Hlk.
      destruct (decide (t ∈ ts ∧ CanHandle a t = true)) as [[Hin Hc]|Hn].
      * rewrite decide_True; [done|]. split; [by right|done].
      * rewrite decide_False; [done|].
        intros [[?|?]%elem_of_cons ?]; [done|]. by apply Hn.
Qed.

Lemma sort_loop_lookup order bt t :
  NoDup order →
  sort_loop bt order !! t =
    if decide (t ∈ order) then sortByName <$> bt !! t else bt !! t.
Proof.
  unfold sort_loop. intros Hnd. revert bt.
  induction Hnd as [|k order Hk Hnd IH]; intros bt.
  - rewrite foldl_done, decide_False; [done|]. apply not_elem_of_nil.
  - rewrite foldl_step, IH. unfold sort_type.
    destruct (decide (t = k)) as [->|Hne].
    + rewrite decide_False by done. rewrite lookup_alter_eq.
      rewrite decide_True; [done|]. by left.
    + rewrite lookup_alter_ne by done.
      destruct (decide (t ∈ order)) as [Hin|Hn].
      * rewrite decide_True; [done|]. by right.
      * rewrite decide_False; [done|]. by intros [?|?]%elem_of_cons.
Qed.

(** Whatever the order of the [range], the loop sorts every sequence. *)
Lemma sort_loop_any_order bt order :
  order ≡ₚ keys bt → sort_loop bt order = sortByName <$> bt.
Proof.
  intros Hp. apply map_eq. intros t.
  rewrite sort_loop_lookup by (by eapply order_NoDup).
  rewrite lookup_fmap. case_decide as Hin; [done|].
  rewrite (elem_of_order _ _ _ Hp) in Hin.
  apply eq_None_not_Some in Hin. by rewrite Hin.
Qed.

Lemma deregister_type_lookup name s k t :
  (deregister_type name s k).1 !! t =
    (if decide (t = k) then dereg_seq name (s.1 !! t) else s.1 !! t) ∧
  (deregister_type name s k).2 !! t =
    (if decide (t = k) then dereg_cur name (s.1 !! t) (s.2 !! t) else s.2 !! t).
Proof.
  unfold deregister_type, dereg_seq, dereg_cur, cursor.
  destruct (decide (t = k)) as [->|Hne].
  - destruct (s.1 !! k) as [lst|] eqn:Hk; [|by rewrite Hk].
    destruct (decide (len (removeNamed name lst) = 0)); simpl.
    + by rewrite !lookup_delete_eq.
    + rewrite lookup_insert_eq. split; [done|].
      case_decide; [by rewrite lookup_insert_eq|done].
  - destruct (s.1 !! k) as [lst|] eqn:Hk; [|done].
    destruct (decide (len (removeNamed name lst) = 0)); simpl.
    + by rewrite !lookup_delete_ne.
    + rewrite lookup_insert_ne by done. split; [done|].
      case_decide; [by rewrite lookup_insert_ne|done].
Qed.

Lemma deregister_loop_lookup name order s t :
  NoDup order →
  (deregister_loop name s order).1 !! t =
    (if decide (t ∈ order) then dereg_seq name (s.1 !! t) else s.1 !! t) ∧
  (deregister_loop name s order).2 !! t =
    (if decide (t ∈ order) then dereg_cur name (s.1 !! t) (s.2 !! t)
     else s.2 !! t).
Proof.
  unfold deregister_loop. intros Hnd. revert s.
  induction Hnd as [|k order Hk Hnd IH]; intros s.
  - rewrite foldl_done, decide_False; [done|]. apply not_elem_of_nil.
  - rewrite foldl_step. destruct (IH (deregister_type name s k)) as [-> ->].
    destruct (deregister_type_lookup name s k t) as [-> ->].
    destruct (decide (t = k)) as [->|Hne]; repeat case_decide; try done;
      exfalso; set_solver.
Qed.

(** The registry after [Deregister], key by key. *)
Lemma deregister_loop_keys name bt rr order t :
  order ≡ₚ keys bt →
  (deregister_loop name (bt, rr) order).1 !! t = dereg_seq name (bt !! t) ∧
  (deregister_loop name (bt, rr) order).2 !! t =
    dereg_cur name (bt !! t) (rr !! t).
Proof.
  intros Hp.
  destruct (deregister_loop_lookup name order (bt, rr) t) as [-> ->];
    [by eapply order_NoDup|]. simpl.
  case_decide as Hin; [done|].
  rewrite (elem_of_order _ _ _ Hp) in Hin.
  apply eq_None_not_Some in Hin. by rewrite Hin.
Qed.

(** Whatever the order of the [range], the loop gives the same maps. *)
Lemma deregister_loop_any_order name bt rr order :
  order ≡ₚ keys bt →
  deregister_loop name (bt, rr) order = deregister_loop name (bt, rr) (keys bt).
Proof.
  intros Hp.
  destruct (deregister_loop name (bt, rr) order) as [bt1 rr1] eqn:H1.
  destruct (deregister_loop name (bt, rr) (keys bt)) as [bt2 rr2] eqn:H2.
  f_equal; apply map_eq; intros t.
  - pose proof (proj1 (deregister_loop_keys name bt rr order t Hp)) as E1.
    pose proof (proj1 (deregister_loop_keys name bt rr (keys bt) t
                         (reflexivity _))) as E2.
    rewrite H1 in E1. rewrite H2 in E2. simpl in *. congruence.
  - pose proof (proj2 (deregister_loop_keys name bt rr order t Hp)) as E1.
    pose proof (proj2 (deregister_loop_keys name bt rr (keys bt) t
                         (reflexivity _))) as E2.
    rewrite H1 in E1. rewrite H2 in E2. simpl in *. congruence.
Qed.

(** ** Register, case by case *)

Lemma Register_refused a taskTypes r :
  refused a r → ∃ msg, Register a taskTypes r = (Some msg, r).
Proof.
  unfold Register. destruct a as [a|]; simpl; [|eauto].
  intros [Hn|Hd].
  - rewrite decide_True by done. eauto.
  - destruct (decide (Name a = EmptyString)); [eauto|].
    rewrite decide_True by done. eauto.
Qed.

Lemma Register_accepted a taskTypes r :
  Name a ≠ EmptyString → byName r !! Name a = None →
  Register (Some a) taskTypes r =
    (None,
     mkRegistry (<[Name a := a]> (byName r))
       (sortByName <$> foldl (index_type a) (byType r) (dedupe taskTypes))
       (rrIdx r)).
Proof.
  intros Hn Hfree. unfold Register.
  rewrite decide_False by done.
  rewrite decide_False by (rewrite Hfree; by intros [? ?]).
  by rewrite sort_loop_any_order.
Qed.

Lemma Register_cases a taskTypes r :
  (refused a r ∧ ∃ msg, Register a taskTypes r = (Some msg, r)) ∨
  (∃ a', a = Some a' ∧ Name a' ≠ EmptyString ∧ byName r !! Name a' = None ∧
         Register a taskTypes r =
           (None,
            mkRegistry (<[Name a' := a']> (byName r))
              (sortByName <$>
                 foldl (index_type a') (byType r) (dedupe taskTypes))
              (rrIdx r))).
Proof.
  destruct a as [a|].
  - destruct (decide (Name a = EmptyString)) as [Hn|Hn].
    { left. split; [by left|]. apply Register_refused. by left. }
    destruct (byName r !! Name a) as [b|] eqn:Hb.
    { left. assert (refused (Some a) r) by (right; by rewrite Hb).
      split; [done|]. by apply Register_refused. }
    right. exists a. by rewrite Register_accepted.
  - left. split; [done|]. by apply Register_refused.
Qed.

(** The sequence of every task type after an accepted registration. *)
Lemma Register_byType a taskTypes r t :
  Name a ≠ EmptyString → byName r !! Name a = None →
  byType (Register (Some a) taskTypes r).2 !! t =
    if decide (t ∈ taskTypes ∧ CanHandle a t = true)
    then Some (sortByName (agentsOf (byType r) t ++ [a]))
    else sortByName <$> byType r !! t.
Proof.
  intros Hn Hfree. rewrite Register_accepted by done. simpl.
  rewrite lookup_fmap, index_loop_lookup by apply dedupe_NoDup.
  repeat case_decide; try done; exfalso; rewrite dedupe_elem_of in *; tauto.
Qed.

(** ** Deregister, case by case *)

Lemma Deregister_absent name r :
  byName r !! name = None → Deregister name r = (false, r).
Proof. intros H. unfold Deregister. by rewrite H. Qed.

Lemma Deregister_present name r :
  is_Some (byName r !! name) →
  (Deregister name r).1 = true ∧
  byName (Deregister name r).2 = delete name (byName r) ∧
  (∀ t, byType (Deregister name r).2 !! t = dereg_seq name (byType r !! t)) ∧
  (∀ t, rrIdx (Deregister name r).2 !! t =
          dereg_cur name (byType r !! t) (rrIdx r !! t)).
Proof.
  intros [a Ha]. unfold Deregister. rewrite Ha. simpl.
  repeat split; intros t;
    destruct (deregister_loop_keys name (byType r) (rrIdx r)
                (keys (byType r)) t (reflexivity _)) as [E1 E2]; done.
Qed.

Lemma len_zero_nil {A} (l : list A) : len l = 0 ↔ l = [].
Proof. unfold len. destruct l; simpl; split; intros; (done || lia). Qed.

Lemma removeNamed_elem_of name lst a :
  a ∈ removeNamed name lst ↔ a ∈ lst ∧ Name a ≠ name.
Proof. unfold removeNamed. rewrite list_elem_of_filter. tauto. Qed.

Lemma removeNamed_length name lst :
  (length (removeNamed name lst) ≤ length lst)%nat.
Proof. apply length_filter. Qed.

Lemma dereg_seq_Some name o nl :
  dereg_seq name o = Some nl ↔
  ∃ lst, o = Some lst ∧ nl = removeNamed name lst ∧ nl ≠ [].
Proof.
  unfold dereg_seq. destruct o as [lst|]; [|naive_solver].
  case_decide as Hz; rewrite len_zero_nil in Hz; naive_solver.
Qed.

(** ** Select, case by case *)

Lemma scan_elem_of r taskType order lst a :
  a ∈ foldl (scan_step r taskType) lst order →
  a ∈ lst ∨
  ∃ k, k ∈ order ∧ byName r !! k = Some a ∧ CanHandle a taskType = true.
Proof.
  revert lst. induction order as [|k order IH]; intros lst; [by left|].
  rewrite foldl_step. intros [Hin | (k' & ? & ? & ?)]%IH.
  - unfold scan_step in Hin.
    destruct (byName r !! k) as [b|] eqn:Hb; [|by left].
    destruct (CanHandle b taskType) eqn:Hc; [|by left].
    apply elem_of_app in Hin as [? | ->%list_elem_of_singleton]; [by left|].
    right. exists k. split; [by left|done].
  - right. exists k'. split; [by right|done].
Qed.

Lemma scan_none r taskType order lst :
  (∀ k a, byName r !! k = Some a → CanHandle a taskType = false) →
  foldl (scan_step r taskType) lst order = lst.
Proof.
  intros Hno. induction order as [|k order IH]; [done|].
  rewrite foldl_step. unfold scan_step at 2.
  destruct (byName r !! k) as [b|] eqn:Hb; [|done].
  by rewrite (Hno _ _ Hb).
Qed.

Lemma scan_found r taskType order lst k a :
  k ∈ order → byName r !! k = Some a → CanHandle a taskType = true →
  a ∈ foldl (scan_step r taskType) lst order.
Proof.
  intros Hin Hk Hc. revert lst.
  induction order as [|k' order IH]; intros lst; [by apply elem_of_nil in Hin|].
  rewrite foldl_step.
  assert (Hmono : ∀ l x, x ∈ l → x ∈ foldl (scan_step r taskType) l order).
  { clear. induction order as [|k order IH]; intros l x Hx; [done|].
    rewrite foldl_step. apply IH. unfold scan_step.
    destruct (byName r !! k) as [b|]; [|done].
    destruct (CanHandle b taskType); [|done]. apply elem_of_app. by left. }
  apply elem_of_cons in Hin as [<-|Hin]; [|by apply IH].
  apply Hmono. unfold scan_step. rewrite Hk, Hc. apply elem_of_app.
  right. by apply list_elem_of_singleton.
Qed.

(** The round-robin step on a sequence with a cursor in range. *)
Lemma select_rr_returns taskType lst r :
  lst ≠ [] → 0 ≤ cursor (rrIdx r) taskType →
  ∃ a i, 0 ≤ i < len lst ∧
         i = Z.rem (cursor (rrIdx r) taskType) (len lst) ∧
         lst !! Z.to_nat i = Some a ∧
         select_rr taskType lst r =
           Returned (Some a,
                     mkRegistry (byName r) (byType r)
                       (<[taskType := Z.rem (i + 1) (len lst)]> (rrIdx r))).
Proof.
  intros Hne Hc. unfold select_rr.
  assert (0 < len lst) as Hlen.
  { unfold len. destruct lst; [done|]. simpl. lia. }
  pose proof (Z.rem_bound_pos (cursor (rrIdx r) taskType) (len lst) Hc Hlen)
    as Hi.
  set (i := Z.rem (cursor (rrIdx r) taskType) (len lst)) in *.
  rewrite decide_True by lia.
  destruct (lst !! Z.to_nat i) as [a|] eqn:Ha.
  - exists a, i. done.
  - apply lookup_ge_None in Ha. unfold len in Hi. lia.
Qed.

(** Whenever the round-robin step returns, it returns an agent of the
    sequence and leaves a cursor in range. *)
Lemma select_rr_inv taskType lst r res r' :
  select_rr taskType lst r = Returned (res, r') →
  ∃ a c, res = Some a ∧ a ∈ lst ∧ 0 ≤ c < len lst ∧
         r' = mkRegistry (byName r) (byType r) (<[taskType := c]> (rrIdx r)).
Proof.
  unfold select_rr.
  set (i := Z.rem (cursor (rrIdx r) taskType) (len lst)).
  case_decide as Hi; [|done].
  destruct (lst !! Z.to_nat i) as [a|] eqn:Ha; [|done].
  intros [= <- <-]. exists a, (Z.rem (i + 1) (len lst)).
  split; [done|]. split; [by eapply list_elem_of_lookup_2|].
  split; [|done].
  apply lookup_lt_Some in Ha.
  apply Z.rem_bound_pos; unfold len; lia.
Qed.

(** ** The consistency of the three indexes *)

Lemma consistent_new : consistent NewRegistry.
Proof. split; simpl; intros *; by rewrite lookup_empty. Qed.

Lemma consistent_cursor_nonneg r t : consistent r → 0 ≤ cursor (rrIdx r) t.
Proof.
  intros Hc. unfold cursor.
  destruct (rrIdx r !! t) as [c|] eqn:E; simpl; [|lia].
  destruct (consistent_cursor r Hc t c E) as (? & _ & ?). lia.
Qed.

Lemma consistent_Register a taskTypes r :
  consistent r → consistent (Register a taskTypes r).2.
Proof.
  intros Hc.
  destruct (Register_cases a taskTypes r)
    as [[_ [msg ->]]|(a' & -> & Hn & Hfree & E)]; [done|].
  assert (Hold : ∀ t x, x ∈ agentsOf (byType r) t →
                        ∃ lst, byType r !! t = Some lst ∧ x ∈ lst).
  { intros t x. unfold agentsOf.
    destruct (byType r !! t) as [lst|]; simpl; [eauto|].
    by intros ?%elem_of_nil. }
  assert (Hview : ∀ t lst x,
            byType (Register (Some a') taskTypes r).2 !! t = Some lst →
            x ∈ lst →
            (x = a' ∧ CanHandle a' t = true) ∨
            (∃ lst0, byType r !! t = Some lst0 ∧ x ∈ lst0)).
  { intros t lst x. rewrite Register_byType by done.
    case_decide as Hd.
    - intros [= <-]. rewrite sortByName_elem_of, elem_of_app.
      intros [Hx | ->%list_elem_of_singleton]; [right; by apply Hold|].
      left. tauto.
    - destruct (byType r !! t) as [lst0|]; [|done].
      intros [= <-]. rewrite sortByName_elem_of. right. eauto. }
  split.
  - rewrite E. simpl. intros n b. rewrite lookup_insert.
    case_decide as Hd; [by intros [= <-]|]. apply Hc.
  - intros t lst x Ht Hx.
    destruct (Hview t lst x Ht Hx) as [[-> _]|(lst0 & Ht0 & Hx0)];
      rewrite E; simpl.
    + apply lookup_insert_eq.
    + pose proof (consistent_registered r Hc t lst0 x Ht0 Hx0) as Hreg.
      rewrite lookup_insert_ne; [done|]. intros Heq. congruence.
  - intros t lst x Ht Hx.
    destruct (Hview t lst x Ht Hx) as [[-> ?]|(lst0 & Ht0 & Hx0)]; [done|].
    by eapply consistent_capable.
  - intros t lst. rewrite Register_byType by done.
    case_decide as Hd.
    + intros [= <-] Hnil. apply sortByName_nil_inv in Hnil.
      by destruct (agentsOf (byType r) t).
    + destruct (byType r !! t) as [lst0|] eqn:Ht0; [|done].
      intros [= <-] Hnil. apply sortByName_nil_inv in Hnil.
      by eapply consistent_nonempty.
  - intros t c Hcur.
    assert (rrIdx r !! t = Some c) as Hcur0 by (by rewrite E in Hcur).
    destruct (consistent_cursor r Hc t c Hcur0) as (lst0 & Ht0 & Hb).
    rewrite Register_byType by done. unfold agentsOf. rewrite Ht0. simpl.
    case_decide; eexists; (split; [done|]); unfold len in *;
      rewrite sortByName_length, ?length_app; simpl; lia.
Qed.

Lemma consistent_Deregister name r :
  consistent r → consistent (Deregister name r).2.
Proof.
  intros Hc.
  destruct (byName r !! name) as [b|] eqn:Hb;
    [|by rewrite Deregister_absent].
  destruct (Deregister_present name r) as (_ & En & Et & Ei); [by eexists|].
  split.
  - intros n a. rewrite En, lookup_delete_Some. intros [_ ?]. by apply Hc.
  - intros t nl a. rewrite Et, dereg_seq_Some. intros (lst & Ht & -> & _).
    rewrite removeNamed_elem_of. intros [Ha Hne].
    rewrite En, lookup_delete_ne by done. by eapply consistent_registered.
  - intros t nl a. rewrite Et, dereg_seq_Some. intros (lst & Ht & -> & _).
    rewrite removeNamed_elem_of. intros [Ha _].
    by eapply consistent_capable.
  - intros t nl. rewrite Et, dereg_seq_Some. by intros (lst & _ & _ & ?).
  - intros t c. rewrite Ei, Et. unfold dereg_cur, dereg_seq.
    destruct (byType r !! t) as [lst|] eqn:Ht.
    + case_decide as Hz; [done|].
      assert (0 < len (removeNamed name lst)) by (unfold len in *; lia).
      case_decide as Hle.
      * intros [= <-]. eexists. split; [done|]. lia.
      * intros Hcur. rewrite Hcur in Hle. simpl in Hle.
        destruct (consistent_cursor r Hc t c Hcur) as (? & _ & ?).
        eexists. split; [done|]. lia.
    + intros Hcur.
      destruct (consistent_cursor r Hc t c Hcur) as (? & ? & _). congruence.
Qed.

Lemma consistent_Select taskType order r res r' :
  consistent r → Select taskType order r = Returned (res, r') → consistent r'.
Proof.
  intros Hc. unfold Select.
  set (lst0 := agentsOf (byType r) taskType).
  case_decide as Hz.
  - set (lst := foldl (scan_step r taskType) lst0 order).
    case_decide as Hz'; [by intros [= <- <-]|].
    intros (a & c & _ & _ & Hcb & ->)%select_rr_inv. simpl.
    apply len_zero_nil in Hz.
    assert (Hscan : ∀ x, x ∈ lst →
              ∃ k, byName r !! k = Some x ∧ CanHandle x taskType = true).
    { intros x [Hx | (k & _ & ? & ?)]%scan_elem_of; [|eauto].
      rewrite Hz in Hx. by apply elem_of_nil in Hx. }
    split; simpl.
    + apply Hc.
    + intros t l x. rewrite lookup_insert. case_decide as Hd.
      * intros [= <-] Hx. destruct (Hscan x Hx) as (k & Hk & _).
        by rewrite (consistent_names_keyed r Hc k x Hk).
      * by apply Hc.
    + intros t l x. rewrite lookup_insert. case_decide as Hd.
      * subst t. intros [= <-] Hx. by destruct (Hscan x Hx) as (k & _ & ?).
      * by apply Hc.
    + intros t l. rewrite lookup_insert. case_decide as Hd.
      * intros [= <-]. by rewrite <- len_zero_nil.
      * by apply Hc.
    + intros t c'. rewrite !lookup_insert. case_decide as Hd.
      * intros [= <-]. eauto.
      * by apply Hc.
  - intros (a & c & _ & _ & Hcb & ->)%select_rr_inv.
    assert (byType r !! taskType = Some lst0) as Ht.
    { subst lst0. unfold agentsOf in *.
      destruct (byType r !! taskType); [done|]. by destruct Hz. }
    split; simpl; try apply Hc.
    intros t c'. rewrite lookup_insert. case_decide as Hd.
    + subst t. intros [= <-]. eauto.
    + by apply Hc.
Qed.

Lemma consistent_exec op r r' :
  consistent r → exec op r = Returned r' → consistent r'.
Proof.
  intros Hc. destruct op; simpl.
  - intros [= <-]. by apply consistent_Register.
  - intros [= <-]. by apply consistent_Deregister.
  - by intros [= <-].
  - destruct (Select taskType order r) as [[res r1]|] eqn:E; [|done].
    intros [= <-]. by eapply consistent_Select.
  - by intros [= <-].
Qed.

Lemma reachable_consistent r : reachable r → consistent r.
Proof.
  induction 1 as [|op r r' _ IH _ Hex]; [apply consistent_new|].
  by eapply consistent_exec.
Qed.

(** In a consistent registry [Select] does not panic. *)
Lemma Select_returns taskType order r :
  consistent r → ∃ res r', Select taskType order r = Returned (res, r').
Proof.
  intros Hc. unfold Select.
  set (lst0 := agentsOf (byType r) taskType).
  case_decide as Hz.
  - set (lst := foldl (scan_step r taskType) lst0 order).
    case_decide as Hz'; [eauto|].
    destruct (select_rr_returns taskType lst
                (mkRegistry (byName r) (<[taskType := lst]> (byType r))
                   (rrIdx r))) as (a & i & _ & _ & _ & ->); simpl; eauto.
    + by rewrite <- len_zero_nil.
    + by apply consistent_cursor_nonneg.
  - destruct (select_rr_returns taskType lst0 r)
      as (a & i & _ & _ & _ & ->); eauto.
    + by rewrite <- len_zero_nil.
    + by apply consistent_cursor_nonneg.
Qed.

(** The round-robin step of [Select] on an indexed task type: the agent
    under the cursor is returned and the cursor moves on, back to zero
    after the last agent. *)
Lemma Select_indexed taskType order r lst c a :
  byType r !! taskType = Some lst → cursor (rrIdx r) taskType = c →
  0 ≤ c → lst !! Z.to_nat c = Some a →
  Select taskType order r =
    Returned (Some a,
              mkRegistry (byName r) (byType r)
                (<[taskType := Z.rem (c + 1) (len lst)]> (rrIdx r))).
Proof.
  intros Ht Hcur Hc Ha. unfold Select, agentsOf. rewrite Ht. simpl.
  pose proof (lookup_lt_Some _ _ _ Ha) as Hlt.
  rewrite decide_False by (unfold len; lia).
  unfold select_rr. rewrite Hcur.
  rewrite (Z.rem_small c (len lst)) by (unfold len; lia).
  rewrite decide_True by done. by rewrite Ha.
Qed.

(** Two selections on a sequence of two agents with the cursor at zero
    return the first and then the second, and bring the cursor back. *)
Lemma Select_pair t o1 o2 r X Y :
  byType r !! t = Some [X; Y] → cursor (rrIdx r) t = 0 →
  ∃ s1 s2,
    Select t o1 r = Returned (Some X, s1) ∧
    Select t o2 s1 = Returned (Some Y, s2) ∧
    byType s2 !! t = Some [X; Y] ∧ cursor (rrIdx s2) t = 0.
Proof.
  intros Ht Hc. do 2 eexists. split; [|split; [|split]].
  - by apply (Select_indexed t o1 r [X; Y] 0 X).
  - apply (Select_indexed t o2 _ [X; Y] 1 Y); simpl; try done.
    unfold cursor. by rewrite lookup_insert_eq.
  - done.
  - simpl. unfold cursor. by rewrite lookup_insert_eq.
Qed.

(** Select on a task type that has a sequence leaves the sequences as
    they are. *)
Lemma Select_indexed_keeps_byType taskType order r lst res r' :
  byType r !! taskType = Some lst → lst ≠ [] →
  Select taskType order r = Returned (res, r') → byType r' = byType r.
Proof.
  intros Ht Hne. unfold Select, agentsOf. rewrite Ht. simpl.
  rewrite decide_False by (by rewrite len_zero_nil).
  by intros (a & c & _ & _ & _ & ->)%select_rr_inv.
Qed.

(** ** List *)

Lemma List_sorted order r : sortedByName (List order r).
Proof. apply sortByName_sorted. Qed.

(** [List] returns the registered agents. *)
Lemma List_elem_of order r a :
  order ≡ₚ keys (byName r) →
  a ∈ List order r ↔ ∃ k, byName r !! k = Some a.
Proof.
  intros Hp. unfold List. rewrite sortByName_elem_of, list_elem_of_omap.
  split.
  - intros (k & _ & Hk). eauto.
  - intros (k & Hk). exists k. split; [|done].
    apply (elem_of_order _ _ _ Hp). by eexists.
Qed.

(** ** The order of the capability sequences *)

(** An accepted Register leaves every sequence sorted. *)
Lemma Register_sorts_index a taskTypes r :
  Name a ≠ EmptyString → byName r !! Name a = None →
  sorted_index (Register (Some a) taskTypes r).2.
Proof.
  intros Hn Hfree t lst. rewrite Register_accepted by done. simpl.
  rewrite lookup_fmap.
  destruct (_ !! t) as [lst0|]; [|done].
  intros [= <-]. apply sortByName_sorted.
Qed.

Lemma Register_keeps_sorted a taskTypes r :
  sorted_index r → sorted_index (Register a taskTypes r).2.
Proof.
  intros Hs.
  destruct (Register_cases a taskTypes r)
    as [[_ [msg ->]]|(a' & -> & Hn & Hfree & _)]; [done|].
  by apply Register_sorts_index.
Qed.

Lemma Deregister_keeps_sorted name r :
  sorted_index r → sorted_index (Deregister name r).2.
Proof.
  intros Hs.
  destruct (byName r !! name) as [b|] eqn:Hb;
    [|by rewrite Deregister_absent].
  destruct (Deregister_present name r) as (_ & _ & Et & _); [by eexists|].
  intros t nl. rewrite Et, dereg_seq_Some. intros (lst & Ht & -> & _).
  apply removeNamed_sorted. by eapply Hs.
Qed.

(** ** Reachable registries *)

Lemma reachable_Register a taskTypes r :
  reachable r → reachable (Register a taskTypes r).2.
Proof.
  intros Hr. by apply (reachable_exec (OpRegister a taskTypes) r).
Qed.

Lemma reachable_Deregister name r :
  reachable r → reachable (Deregister name r).2.
Proof. intros Hr. by apply (reachable_exec (OpDeregister name) r). Qed.

Lemma reachable_Select taskType order r res r' :
  reachable r → order ≡ₚ keys (byName r) →
  Select taskType order r = Returned (res, r') → reachable r'.
Proof.
  intros Hr Hp E. apply (reachable_exec (OpSelect taskType order) r); [done..|].
  simpl. by rewrite E.
Qed.

Lemma reachable_declared : reachable declared.
Proof. do 2 apply reachable_Register. apply reachable_new. Qed.

Lemma reachable_undeclared : reachable undeclared.
Proof. do 2 apply reachable_Register. apply reachable_new. Qed.

Lemma reachable_declared_selected : reachable declared_selected.
Proof.
  apply (reachable_exec (OpSelect "grade" ["a"; "b"]%string) declared).
  - apply reachable_declared.
  - vm_compute. reflexivity.
  - vm_compute. reflexivity.
Qed.

Lemma declared_byName k a :
  byName declared !! k = Some a → a = agentA ∨ a = agentB.
Proof.
  intros H%elem_of_map_to_list.
  assert (map_to_list (byName declared) = [("a"%string, agentA); ("b"%string, agentB)])
    as E by (vm_compute; reflexivity).
  rewrite E in H.
  apply elem_of_cons in H as [[= _ ->] | H]; [by left|].
  apply elem_of_cons in H as [[= _ ->] | H]; [by right|].
  by apply elem_of_nil in H.
Qed.

(** ** The model on small inputs *)

Example dedupe_example :
  dedupe ["grade"; "notify"; "grade"; "recommend"; "notify"]%string
  = ["grade"; "notify"; "recommend"]%string.
Proof. reflexivity. Qed.

Example sortByName_example :
  sortByName [agentB; agentA] = [agentA; agentB].
Proof. reflexivity. Qed.

Example declared_byType :
  map_to_list (byType declared) = [("grade"%string, [agentA; agentB])].
Proof. vm_compute. reflexivity. Qed.

Example declared_selected_rrIdx :
  map_to_list (rrIdx declared_selected) = [("grade"%string, 1)].
Proof. vm_compute. reflexivity. Qed.

Example undeclared_byType : byType undeclared = ∅.
Proof. vm_compute. reflexivity. Qed.

Example Deregister_example :
  map_to_list (byType (Deregister "a" declared_selected).2)
    = [("grade"%string, [agentB])] ∧
  map_to_list (rrIdx (Deregister "a" declared_selected).2)
    = [("grade"%string, 0)].
Proof. split; vm_compute; reflexivity. Qed.

Example List_example :
  List ["b"; "a"]%string declared = [agentA; agentB].
Proof. vm_compute. reflexivity. Qed.

(** * The claims *)

(** C1: in every registry reached by completed calls of Register,
    Deregister, Select, Get and List, every agent of every capability
    sequence is in the name index under its own name. *)
Theorem C1_sequences_registered r t lst a :
  reachable r → byType r !! t = Some lst → a ∈ lst →
  byName r !! Name a = Some a.
Proof.
  intros Hr. apply consistent_registered. by apply reachable_consistent.
Qed.

Lemma C1_sequences_registered_witness :
  byName declared !! Name agentB = Some agentB.
Proof.
  apply (C1_sequences_registered declared "grade" [agentA; agentB] agentB).
  - apply reachable_declared.
  - vm_compute. reflexivity.
  - right. left.
Defined.

(** C2 does not hold of the fallback path of Select: with agents "a" and
    "b" registered without task types, a selection of "grade" whose scan
    of the name index meets "b" first caches the sequence b, a, which is
    not in ascending order of names, and returns b; a scan that meets "a"
    first returns a. *)
Theorem C2_fallback_not_sorted :
  reachable undeclared ∧
  ["b"; "a"]%string ≡ₚ keys (byName undeclared) ∧
  Select "grade" ["b"; "a"]%string undeclared
    = Returned (Some agentB, undeclared_selected) ∧
  reachable undeclared_selected ∧
  byType undeclared_selected !! "grade"%string = Some [agentB; agentA] ∧
  ¬ sortedByName [agentB; agentA] ∧
  ∃ r', Select "grade" ["a"; "b"]%string undeclared
          = Returned (Some agentA, r').
Proof.
  assert (["b"; "a"]%string ≡ₚ keys (byName undeclared)) as Hp.
  { assert (keys (byName undeclared) = ["a"; "b"]%string) as ->
      by (vm_compute; reflexivity).
    apply perm_swap. }
  assert (Select "grade" ["b"; "a"]%string undeclared
          = Returned (Some agentB, undeclared_selected)) as Hsel
    by (vm_compute; reflexivity).
  split; [apply reachable_undeclared|]. split; [done|]. split; [done|].
  split; [by eapply reachable_Select, Hsel; [apply reachable_undeclared|]|].
  split; [vm_compute; reflexivity|]. split.
  - intros Hs. apply Sorted_inv in Hs as [_ Hhd].
    apply HdRel_inv in Hhd. vm_compute in Hhd. discriminate.
  - eexists. vm_compute. reflexivity.
Qed.

(** C3: in every registry reached by completed calls, a capability
    sequence that is present is not empty and a cursor of its task type is
    an index into it; a task type whose sequence is absent or empty has no
    cursor. *)
Theorem C3_cursor_in_range r t :
  reachable r →
  (∀ lst, byType r !! t = Some lst →
          lst ≠ [] ∧ ∀ c, rrIdx r !! t = Some c → 0 ≤ c < len lst) ∧
  (byType r !! t = None ∨ byType r !! t = Some [] → rrIdx r !! t = None).
Proof.
  intros Hc%reachable_consistent. split.
  - intros lst Ht. split; [by eapply consistent_nonempty|].
    intros c Hcur.
    destruct (consistent_cursor r Hc t c Hcur) as (lst' & Ht' & ?).
    congruence.
  - intros Hnone. destruct (rrIdx r !! t) as [c|] eqn:Hcur; [|done].
    destruct (consistent_cursor r Hc t c Hcur) as (lst & Ht & Hb).
    destruct Hnone as [Hn|Hn]; rewrite Hn in Ht; [done|].
    injection Ht as <-. unfold len in Hb. simpl in Hb. lia.
Qed.

(** In [declared_selected] the sequence of "grade" has two agents and
    the cursor is 1. *)
Lemma C3_cursor_in_range_witness :
  [agentA; agentB] ≠ [] ∧ 0 ≤ 1 < len [agentA; agentB].
Proof.
  destruct (C3_cursor_in_range declared_selected "grade"
              reachable_declared_selected) as [Hseq _].
  destruct (Hseq [agentA; agentB]) as [Hne Hcur].
  - vm_compute. reflexivity.
  - split; [exact Hne|]. apply Hcur. vm_compute. reflexivity.
Defined.

(** C4: after Register(A, "grade") and Register(B, "grade") on an empty
    registry, for agents of distinct non-empty names that accept "grade",
    both calls succeed and four calls of Select("grade") return found
    agents X, Y, X, Y, where X is the agent of the smaller name. *)
Theorem C4_round_robin A B o1 o2 o3 o4 :
  Name A ≠ EmptyString → Name B ≠ EmptyString → Name A ≠ Name B →
  CanHandle A "grade" = true → CanHandle B "grade" = true →
  let r1 := Register (Some A) ["grade"%string] NewRegistry in
  let r2 := Register (Some B) ["grade"%string] r1.2 in
  let X := if lessName A B then A else B in
  let Y := if lessName A B then B else A in
  r1.1 = None ∧ r2.1 = None ∧ lessName X Y = true ∧
  ∃ s1 s2 s3 s4,
    Select "grade" o1 r2.2 = Returned (Some X, s1) ∧
    Select "grade" o2 s1 = Returned (Some Y, s2) ∧
    Select "grade" o3 s2 = Returned (Some X, s3) ∧
    Select "grade" o4 s3 = Returned (Some Y, s4).
Proof.
  intros HA HB Hne HcA HcB r1 r2 X Y.
  assert (byName NewRegistry !! Name A = None) as HfreeA by apply lookup_empty.
  assert (r1.1 = None) as Hok1 by (subst r1; by rewrite Register_accepted).
  assert (byName r1.2 !! Name B = None) as HfreeB.
  { subst r1. rewrite Register_accepted by done. simpl.
    rewrite lookup_insert_ne by done. apply lookup_empty. }
  assert (r2.1 = None) as Hok2 by (subst r2; by rewrite Register_accepted).
  assert (byType r1.2 !! "grade"%string = Some [A]) as E1.
  { subst r1. rewrite Register_byType by done.
    rewrite decide_True; [done|]. split; [by left|done]. }
  assert (byType r2.2 !! "grade"%string
          = Some (if lessName B A then [B; A] else [A; B])) as E2.
  { subst r2. rewrite Register_byType by done.
    rewrite decide_True by (split; [by left|done]).
    unfold agentsOf. rewrite E1. simpl. by destruct (lessName B A). }
  assert (cursor (rrIdx r2.2) "grade" = 0) as Hcur.
  { subst r2. rewrite Register_accepted by done. simpl.
    subst r1. rewrite Register_accepted by done. done. }
  assert (lessName X Y = true ∧ byType r2.2 !! "grade"%string = Some [X; Y])
    as [Hlt E].
  { subst X Y. rewrite E2.
    destruct (lessName A B) eqn:HAB.
    - by rewrite (lessName_asym _ _ HAB).
    - destruct (lessName_total A B Hne) as [?|HBA]; [congruence|].
      by rewrite HBA. }
  split; [done|]. split; [done|]. split; [done|].
  destruct (Select_pair "grade" o1 o2 r2.2 X Y E Hcur)
    as (s1 & s2 & S1 & S2 & E' & Hcur').
  destruct (Select_pair "grade" o3 o4 s2 X Y E' Hcur')
    as (s3 & s4 & S3 & S4 & _).
  by exists s1, s2, s3, s4.
Qed.

Lemma C4_round_robin_witness :
  ∃ s1 s2 s3 s4,
    Select "grade" ["a"; "b"]%string
      (Register (Some agentA) ["grade"%string]
         (Register (Some agentB) ["grade"%string] NewRegistry).2).2
      = Returned (Some agentA, s1) ∧
    Select "grade" ["b"; "a"]%string s1 = Returned (Some agentB, s2) ∧
    Select "grade" ["a"; "b"]%string s2 = Returned (Some agentA, s3) ∧
    Select "grade" ["b"; "a"]%string s3 = Returned (Some agentB, s4).
Proof.
  apply (C4_round_robin agentB agentA
           ["a"; "b"]%string ["b"; "a"]%string
           ["a"; "b"]%string ["b"; "a"]%string).
  - vm_compute. discriminate.
  - vm_compute. discriminate.
  - vm_compute. discriminate.
  - reflexivity.
  - reflexivity.
Defined.

(** C5: Register returns an error exactly when the agent is nil, or its
    name is empty, or its name is already in the name index; and when it
    returns an error the registry is as it was before the call. *)
Theorem C5_register_errors a taskTypes r :
  ((Register a taskTypes r).1 ≠ None ↔
   a = None ∨
   ∃ a', a = Some a' ∧
         (Name a' = EmptyString ∨ is_Some (byName r !! Name a'))) ∧
  ((Register a taskTypes r).1 ≠ None → (Register a taskTypes r).2 = r).
Proof.
  destruct (Register_cases a taskTypes r)
    as [[Href [msg ->]]|(a' & -> & Hn & Hfree & ->)]; simpl.
  - split; [|done]. split; [|done]. intros _.
    destruct a as [a'|]; [right|by left]. by exists a'.
  - split; [|done]. split; [done|].
    intros [?|(? & [= <-] & [?|[? Hsome]])]; [done..|congruence].
Qed.

Lemma C5_register_errors_witness :
  (Register (Some agentA) ["grade"%string] declared).1 ≠ None ∧
  (Register (Some agentA) ["grade"%string] declared).2 = declared.
Proof.
  pose proof (C5_register_errors (Some agentA) ["grade"%string] declared)
    as [Hiff Hsame].
  assert ((Register (Some agentA) ["grade"%string] declared).1 ≠ None) as He.
  { apply Hiff. right. exists agentA. split; [reflexivity|]. right.
    exists agentA. vm_compute. reflexivity. }
  split; [exact He | exact (Hsame He)].
Defined.

(** C6: a Register that returns no error had an agent to register, ran
    over the task types of the call with repetitions removed (first
    occurrences kept), and left the agent appended once to the sequence
    of every such type it accepts and to no other, each sequence then
    sorted by name; a type the agent declines raises no error. *)
Theorem C6_register_indexes a taskTypes r :
  (Register a taskTypes r).1 = None →
  ∃ a', a = Some a' ∧
    byType (Register a taskTypes r).2 =
      sortByName <$>
        foldl (index_type a') (byType r) (firstOccurrences taskTypes) ∧
    ∀ t, byType (Register a taskTypes r).2 !! t =
           if decide (t ∈ taskTypes ∧ CanHandle a' t = true)
           then Some (sortByName (agentsOf (byType r) t ++ [a']))
           else sortByName <$> byType r !! t.
Proof.
  destruct (Register_cases a taskTypes r)
    as [[_ [msg ->]]|(a' & -> & Hn & Hfree & E)]; [done|].
  intros _. exists a'. split; [done|]. split.
  - rewrite E. simpl. by rewrite dedupe_firstOccurrences.
  - intros t. by apply Register_byType.
Qed.

Lemma C6_register_indexes_witness :
  ∃ a', Some agentB = Some a' ∧
    byType (Register (Some agentB) ["grade"; "notify"; "grade"]%string
              NewRegistry).2 =
      sortByName <$>
        foldl (index_type a') (byType NewRegistry)
          (firstOccurrences ["grade"; "notify"; "grade"]%string) ∧
    ∀ t, byType (Register (Some agentB) ["grade"; "notify"; "grade"]%string
                   NewRegistry).2 !! t =
           if decide (t ∈ ["grade"; "notify"; "grade"]%string ∧
                      CanHandle a' t = true)
           then Some (sortByName (agentsOf (byType NewRegistry) t ++ [a']))
           else sortByName <$> byType NewRegistry !! t.
Proof.
  apply (C6_register_indexes (Some agentB)
           ["grade"; "notify"; "grade"]%string NewRegistry).
  vm_compute. reflexivity.
Defined.

(** C7: when the capability sequence of a task type is absent or empty and
    no registered agent accepts the type, Select returns not found and
    the registry is as it was before the call. *)
Theorem C7_select_none r taskType order :
  byType r !! taskType = None ∨ byType r !! taskType = Some [] →
  (∀ k a, byName r !! k = Some a → CanHandle a taskType = false) →
  Select taskType order r = Returned (None, r).
Proof.
  intros Hseq Hno. unfold Select.
  assert (agentsOf (byType r) taskType = []) as ->.
  { unfold agentsOf. by destruct Hseq as [-> | ->]. }
  rewrite decide_True by done.
  rewrite scan_none by done. by rewrite decide_True.
Qed.

Lemma C7_select_none_witness :
  Select "notify" ["b"; "a"]%string declared = Returned (None, declared).
Proof.
  apply (C7_select_none declared "notify" ["b"; "a"]%string).
  - left. vm_compute. reflexivity.
  - intros k a [-> | ->]%declared_byName; reflexivity.
Defined.

(** C8: when Deregister shortens the capability sequence of a task type
    and leaves it non-empty, the cursor of the type becomes zero if it was
    at or above the new length, and is unchanged otherwise. *)
Theorem C8_cursor_clamped name r t lst newList :
  byType r !! t = Some lst →
  byType (Deregister name r).2 !! t = Some newList →
  (length newList < length lst)%nat →
  (len newList ≤ cursor (rrIdx r) t →
   rrIdx (Deregister name r).2 !! t = Some 0) ∧
  (cursor (rrIdx r) t < len newList →
   rrIdx (Deregister name r).2 !! t = rrIdx r !! t).
Proof.
  intros Ht Ht' Hshort.
  destruct (byName r !! name) as [b|] eqn:Hb.
  - destruct (Deregister_present name r) as (_ & _ & Et & Ei); [by eexists|].
    rewrite Et, Ht in Ht'. rewrite Ei, Ht.
    unfold dereg_seq in Ht'. unfold dereg_cur, cursor.
    case_decide as Hz; [done|]. injection Ht' as <-.
    split; intros Hcmp; case_decide; (done || lia).
  - rewrite Deregister_absent in Ht' by done. simpl in Ht'.
    assert (newList = lst) as -> by congruence. lia.
Qed.

(** In [declared_selected] the cursor of "grade" stands on the second
    agent; without that agent it is reset. *)
Lemma C8_cursor_clamped_witness :
  rrIdx (Deregister "b" declared_selected).2 !! "grade"%string = Some 0.
Proof.
  apply (C8_cursor_clamped "b" declared_selected "grade" [agentA; agentB]
           [agentA]).
  - vm_compute. reflexivity.
  - vm_compute. reflexivity.
  - simpl. lia.
  - vm_compute. discriminate.
Defined.

(** C9: in every registry reached by completed calls, Select returns, and
    an agent it returns as found accepts the requested task type. *)
Theorem C9_selected_can_handle r taskType order :
  reachable r →
  (∃ res r', Select taskType order r = Returned (res, r')) ∧
  (∀ a r', Select taskType order r = Returned (Some a, r') →
           CanHandle a taskType = true).
Proof.
  intros Hc%reachable_consistent. split; [by apply Select_returns|].
  intros a r'. unfold Select.
  set (lst0 := agentsOf (byType r) taskType).
  case_decide as Hz.
  - set (lst := foldl (scan_step r taskType) lst0 order).
    case_decide as Hz'; [done|].
    intros (a' & c & [= <-] & Ha & _)%select_rr_inv.
    apply len_zero_nil in Hz.
    apply scan_elem_of in Ha as [Ha | (k & _ & _ & ?)]; [|done].
    rewrite Hz in Ha. by apply elem_of_nil in Ha.
  - intros (a' & c & [= <-] & Ha & _)%select_rr_inv.
    subst lst0. unfold agentsOf in *.
    destruct (byType r !! taskType) as [lst|] eqn:Ht; [|by destruct Hz].
    by eapply consistent_capable.
Qed.

(** The fallback scan of [undeclared] that meets "b" first returns
    [agentB], which accepts "grade". *)
Lemma C9_selected_can_handle_witness : CanHandle agentB "grade" = true.
Proof.
  destruct (C9_selected_can_handle undeclared "grade" ["b"; "a"]%string
              reachable_undeclared) as [_ Hcan].
  apply (Hcan agentB undeclared_selected).
  vm_compute. reflexivity.
Defined.

(** C10: Deregister of a name that is not in the name index returns false
    and leaves the registry as it was before the call. *)
Theorem C10_deregister_absent name r :
  byName r !! name = None → Deregister name r = (false, r).
Proof. apply Deregister_absent. Qed.

Lemma C10_deregister_absent_witness :
  Deregister "c" declared_selected = (false, declared_selected).
Proof.
  apply (C10_deregister_absent "c" declared_selected).
  vm_compute. reflexivity.
Defined.

(** * Further properties of the registry *)

(** ** dedupe *)

Lemma filter_all_id {A} (P : A → Prop) `{!∀ x, Decision (P x)} (l : list A) :
  (∀ x, x ∈ l → P x) → filter P l = l.
Proof.
  induction l as [|x l IH]; intros Hall; [done|].
  rewrite filter_cons_True by (apply Hall; by left).
  f_equal. apply IH. intros y Hy. apply Hall. by right.
Qed.

Lemma firstOccurrences_sublist l : firstOccurrences l `sublist_of` l.
Proof.
  induction l as [|s rest IH]; simpl; [done|].
  apply sublist_skip. etrans; [apply sublist_filter|done].
Qed.

Lemma firstOccurrences_NoDup_id l : NoDup l → firstOccurrences l = l.
Proof.
  induction 1 as [|s rest Hs Hnd IH]; simpl; [done|].
  rewrite IH. f_equal. apply filter_all_id. intros y Hy ->. done.
Qed.

Lemma firstOccurrences_snoc l x :
  firstOccurrences (l ++ [x]) =
    if decide (x ∈ l) then firstOccurrences l else firstOccurrences l ++ [x].
Proof.
  induction l as [|s rest IH].
  - rewrite decide_False by apply not_elem_of_nil. done.
  - change (firstOccurrences ((s :: rest) ++ [x]))
      with (s :: filter (λ y, y ≠ s) (firstOccurrences (rest ++ [x]))).
    change (firstOccurrences (s :: rest))
      with (s :: filter (λ y, y ≠ s) (firstOccurrences rest)).
    rewrite IH. destruct (decide (x = s)) as [->|Hne].
    + rewrite (decide_True (P := s ∈ s :: rest)) by (by left).
      case_decide; [done|].
      rewrite filter_app, filter_cons_False, filter_nil, app_nil_r; [done|].
      intros Hs; by apply Hs.
    + case_decide as Hin.
      * rewrite decide_True by (by right). done.
      * rewrite decide_False by (by intros [?|?]%elem_of_cons).
        rewrite filter_app, filter_cons_True, filter_nil by done. done.
Qed.

(** X1: dedupe returns the strings of its input without repetition, in
    the order of their first occurrences: the result has no duplicate and
    the same elements, is a subsequence of the input, grows at the end by
    a string that was not seen before and is unchanged by one that was,
    and is the input itself exactly when the input has no duplicate. *)
Theorem X1_dedupe_first_occurrences l :
  NoDup (dedupe l) ∧
  (∀ x, x ∈ dedupe l ↔ x ∈ l) ∧
  dedupe l `sublist_of` l ∧
  (∀ x, dedupe (l ++ [x]) =
          if decide (x ∈ l) then dedupe l else dedupe l ++ [x]) ∧
  (dedupe l = l ↔ NoDup l).
Proof.
  split; [apply dedupe_NoDup|]. split; [intros x; apply dedupe_elem_of|].
  rewrite !dedupe_firstOccurrences. split; [apply firstOccurrences_sublist|].
  split.
  - intros x. rewrite !dedupe_firstOccurrences. apply firstOccurrences_snoc.
  - split; [|apply firstOccurrences_NoDup_id].
    intros <-. apply firstOccurrences_NoDup.
Qed.

(** ** The names of registered agents *)

Lemma nameLe_antisym a b : nameLe a b → nameLe b a → Name a = Name b.
Proof.
  unfold nameLe. intros Hab Hba.
  destruct (decide (Name a = Name b)) as [|Hne]; [done|].
  destruct (lessName_total a b Hne); congruence.
Qed.

(** A sequence of agents of distinct names has one arrangement in
    ascending order of names. *)
Lemma sorted_perm_unique l1 l2 :
  NoDup (Name <$> l1) → sortedByName l1 → sortedByName l2 → l1 ≡ₚ l2 →
  l1 = l2.
Proof.
  unfold sortedByName. intros Hnd H1 H2.
  apply (Sorted_StronglySorted nameLe_trans) in H1.
  apply (Sorted_StronglySorted nameLe_trans) in H2.
  revert l2 H2.
  induction H1 as [|a l1 Hs IH Hall]; intros l2 H2 Hp.
  - by apply Permutation_nil in Hp.
  - destruct H2 as [|b l2 Hs2 Hall2].
    { symmetry in Hp. by apply Permutation_nil in Hp. }
    rewrite fmap_cons in Hnd. apply NoDup_cons in Hnd as [Hfresh Hnd].
    assert (a ∈ b :: l2) as Ha by (rewrite <- Hp; by left).
    assert (b ∈ a :: l1) as Hb by (rewrite Hp; by left).
    rewrite Forall_forall in Hall, Hall2.
    assert (a = b) as <-.
    { apply elem_of_cons in Ha as [?|Ha]; [done|].
      apply elem_of_cons in Hb as [?|Hb]; [done|].
      exfalso. apply Hfresh.
      rewrite (nameLe_antisym a b) by auto.
      apply list_elem_of_fmap. by exists b. }
    f_equal. apply IH; [done..|]. by apply Permutation_cons_inv in Hp.
Qed.

Lemma scanned_names_sublist r order :
  (∀ n a, byName r !! n = Some a → Name a = n) →
  Name <$> scanned r order `sublist_of` order.
Proof.
  intros Hkeyed. unfold scanned.
  induction order as [|k order IH]; [done|]. simpl.
  destruct (byName r !! k) as [a|] eqn:Hk; simpl.
  - rewrite (Hkeyed _ _ Hk). by apply sublist_skip.
  - by apply sublist_cons.
Qed.

Lemma scanned_length r order :
  (∀ k, k ∈ order → is_Some (byName r !! k)) →
  length (scanned r order) = length order.
Proof.
  unfold scanned. induction order as [|k order IH]; intros Hall; [done|].
  simpl. destruct (Hall k) as [a ->]; [by left|]. simpl.
  f_equal. apply IH. intros k' Hk'. apply Hall. by right.
Qed.

Lemma scanned_perm r order order' :
  order ≡ₚ order' → scanned r order ≡ₚ scanned r order'.
Proof. unfold scanned. by intros ->. Qed.

(** X2: in a registry reached by completed calls, List returns the
    registered agents, each once, in ascending order of names; an agent
    is listed exactly when Get finds it under its name; and the result is
    the only name-sorted arrangement of the agents met by the range, so
    it depends neither on the order of the range over the name index nor
    on how sort.Slice places equal keys. *)
Theorem X2_List_registered_sorted r order :
  reachable r → order ≡ₚ keys (byName r) →
  sortedByName (List order r) ∧
  NoDup (Name <$> List order r) ∧
  (∀ a, a ∈ List order r ↔ Get (Name a) r = Some a) ∧
  length (List order r) = size (byName r) ∧
  (∀ out, out ≡ₚ scanned r order → sortedByName out → out = List order r) ∧
  (∀ order', order' ≡ₚ keys (byName r) → List order' r = List order r).
Proof.
  intros Hc%reachable_consistent Hp.
  pose proof (consistent_names_keyed r Hc) as Hkeyed.
  assert (NoDup (Name <$> scanned r order)) as Hnd.
  { eapply sublist_NoDup; [by eapply order_NoDup|].
    by apply scanned_names_sublist. }
  assert (List order r ≡ₚ scanned r order) as Hperm
    by apply sortByName_perm.
  assert (∀ out, out ≡ₚ scanned r order → sortedByName out →
                 out = List order r) as Huniq.
  { intros out Hout Hs. symmetry.
    apply sorted_perm_unique; [by rewrite Hperm|apply List_sorted|done|].
    by rewrite Hperm, Hout. }
  split; [apply List_sorted|]. split; [by rewrite Hperm|]. split; [|split].
  - intros a. rewrite List_elem_of by done. unfold Get. split.
    + intros (k & Hk). by rewrite (Hkeyed _ _ Hk).
    + eauto.
  - rewrite Hperm, scanned_length.
    + rewrite Hp. unfold keys. by rewrite length_fmap, length_map_to_list.
    + intros k. by rewrite (elem_of_order _ _ _ Hp).
  - split; [done|]. intros order' Hp'. apply Huniq; [|apply List_sorted].
    etrans; [apply sortByName_perm|]. apply scanned_perm. by rewrite Hp, Hp'.
Qed.

Lemma X2_List_registered_sorted_witness :
  sortedByName (List ["b"; "a"]%string declared) ∧
  NoDup (Name <$> List ["b"; "a"]%string declared) ∧
  (∀ a, a ∈ List ["b"; "a"]%string declared ↔
        Get (Name a) declared = Some a) ∧
  length (List ["b"; "a"]%string declared) = size (byName declared) ∧
  (∀ out, out ≡ₚ scanned declared ["b"; "a"]%string → sortedByName out →
          out = List ["b"; "a"]%string declared) ∧
  (∀ order', order' ≡ₚ keys (byName declared) →
             List order' declared = List ["b"; "a"]%string declared).
Proof.
  apply (X2_List_registered_sorted declared ["b"; "a"]%string).
  - apply reachable_declared.
  - assert (keys (byName declared) = ["a"; "b"]%string) as ->
      by (vm_compute; reflexivity).
    apply perm_swap.
Defined.

(** ** Register, Deregister and Get *)

(** X3: a Register that returns no error took a name that Get did not
    find before; afterwards Get finds the agent under its name, and what
    Get finds under every other name is as before. *)
Theorem X3_Get_after_Register a taskTypes r :
  (Register (Some a) taskTypes r).1 = None →
  Get (Name a) r = None ∧
  Get (Name a) (Register (Some a) taskTypes r).2 = Some a ∧
  ∀ n, n ≠ Name a → Get n (Register (Some a) taskTypes r).2 = Get n r.
Proof.
  destruct (Register_cases (Some a) taskTypes r)
    as [[_ [msg ->]]|(a' & [= <-] & Hn & Hfree & ->)]; [done|].
  intros _. unfold Get. simpl. split; [done|]. split.
  - apply lookup_insert_eq.
  - intros n Hne. by rewrite lookup_insert_ne.
Qed.

Lemma X3_Get_after_Register_witness :
  Get (Name agentB) solo = None ∧
  Get (Name agentB) (Register (Some agentB) ["grade"%string] solo).2
    = Some agentB ∧
  ∀ n, n ≠ Name agentB →
       Get n (Register (Some agentB) ["grade"%string] solo).2 = Get n solo.
Proof.
  apply (X3_Get_after_Register agentB ["grade"%string] solo).
  vm_compute. reflexivity.
Defined.

(** X4: a second Register under a name that a Register has just taken
    returns the error "agent already registered: " followed by the name,
    whatever the agent and its task types, and changes nothing. *)
Theorem X4_Register_twice a b taskTypes taskTypes' r :
  (Register (Some a) taskTypes r).1 = None → Name b = Name a →
  Register (Some b) taskTypes' (Register (Some a) taskTypes r).2 =
    (Some ("agent already registered: " ++ Name a)%string,
     (Register (Some a) taskTypes r).2).
Proof.
  destruct (Register_cases (Some a) taskTypes r)
    as [[_ [msg ->]]|(a' & [= <-] & Hn & Hfree & ->)]; [done|].
  intros _ Hb. unfold Register at 1. simpl. rewrite Hb.
  rewrite decide_False by done.
  rewrite decide_True; [done|]. rewrite lookup_insert_eq. by eexists.
Qed.

Lemma X4_Register_twice_witness :
  Register (Some agentA) [] solo =
    (Some ("agent already registered: " ++ Name agentA)%string, solo).
Proof.
  apply (X4_Register_twice agentA agentA ["grade"%string] [] NewRegistry).
  - vm_compute. reflexivity.
  - reflexivity.
Defined.

(** X5: Deregister of a registered name returns true; afterwards Get does
    not find the name and finds every other name as before; a sequence
    all of whose agents had the name is deleted together with its cursor,
    every other sequence keeps its agents of other names in their order,
    and a task type without sequence stays without, its cursor entry
    untouched. *)
Theorem X5_Deregister_removes name r :
  is_Some (Get name r) →
  (Deregister name r).1 = true ∧
  Get name (Deregister name r).2 = None ∧
  (∀ n, n ≠ name → Get n (Deregister name r).2 = Get n r) ∧
  (∀ t lst, byType r !! t = Some lst →
     if decide (filter (λ ag, Name ag ≠ name) lst = [])
     then byType (Deregister name r).2 !! t = None ∧
          rrIdx (Deregister name r).2 !! t = None
     else byType (Deregister name r).2 !! t
          = Some (filter (λ ag, Name ag ≠ name) lst)) ∧
  (∀ t, byType r !! t = None →
        byType (Deregister name r).2 !! t = None ∧
        rrIdx (Deregister name r).2 !! t = rrIdx r !! t).
Proof.
  intros Hreg.
  destruct (Deregister_present name r Hreg) as (Hok & En & Et & Ei).
  split; [done|]. unfold Get. rewrite En. split; [apply lookup_delete_eq|].
  split; [intros n Hne; by rewrite lookup_delete_ne|]. split.
  - intros t lst Ht. rewrite Et, Ei, Ht. unfold dereg_seq, dereg_cur.
    fold (removeNamed name lst).
    case_decide as Hnil.
    + assert (len (removeNamed name lst) = 0) as Hz
        by (by apply len_zero_nil).
      by repeat case_decide.
    + assert (len (removeNamed name lst) ≠ 0) as Hz
        by (by rewrite len_zero_nil).
      by case_decide.
  - intros t Ht. by rewrite Et, Ei, Ht.
Qed.

Lemma X5_Deregister_removes_witness :
  Get "b" (Deregister "b" declared_selected).2 = None ∧
  byType (Deregister "b" declared_selected).2 !! "grade"%string
    = Some [agentA] ∧
  byType (Deregister "a" solo).2 !! "grade"%string = None.
Proof.
  destruct (X5_Deregister_removes "b" declared_selected)
    as (_ & Hget & _ & Hseq & _).
  { exists agentB. vm_compute. reflexivity. }
  destruct (X5_Deregister_removes "a" solo) as (_ & _ & _ & Hseq' & _).
  { exists agentA. vm_compute. reflexivity. }
  split; [exact Hget|]. split.
  - apply (Hseq "grade"%string [agentA; agentB]). vm_compute. reflexivity.
  - apply (Hseq' "grade"%string [agentA]). vm_compute. reflexivity.
Defined.

(** X6: Deregister of the same name a second time returns false and
    changes nothing, whether or not the first call found the name. *)
Theorem X6_Deregister_twice name r :
  Deregister name (Deregister name r).2 = (false, (Deregister name r).2).
Proof.
  apply Deregister_absent.
  destruct (byName r !! name) as [a|] eqn:Ha.
  - destruct (Deregister_present name r) as (_ & -> & _); [by eexists|].
    apply lookup_delete_eq.
  - by rewrite Deregister_absent.
Qed.

(** X7: in a registry reached by completed calls, Deregister leaves a
    capability sequence that holds no agent of the name, and the cursor
    of its task type, as they were. *)
Theorem X7_Deregister_frame name r t lst :
  reachable r → byType r !! t = Some lst →
  (∀ a, a ∈ lst → Name a ≠ name) →
  byType (Deregister name r).2 !! t = Some lst ∧
  rrIdx (Deregister name r).2 !! t = rrIdx r !! t.
Proof.
  intros Hc%reachable_consistent Ht Hother.
  destruct (byName r !! name) as [b|] eqn:Hb;
    [|by rewrite Deregister_absent].
  destruct (Deregister_present name r) as (_ & _ & Et & Ei); [by eexists|].
  rewrite Et, Ei, Ht. unfold dereg_seq, dereg_cur.
  assert (removeNamed name lst = lst) as ->
    by (by apply filter_all_id).
  pose proof (consistent_nonempty r Hc t lst Ht) as Hne.
  rewrite !decide_False by (by rewrite len_zero_nil).
  split; [done|]. case_decide as Hle; [|done]. exfalso.
  destruct (rrIdx r !! t) as [c|] eqn:Hcur; simpl in Hle.
  - destruct (consistent_cursor r Hc t c Hcur) as (lst' & Ht' & ?).
    assert (lst' = lst) as -> by congruence. lia.
  - destruct lst; [done|]. unfold len in Hle. simpl in Hle. lia.
Qed.

Lemma X7_Deregister_frame_witness :
  byType (Deregister "c" declared_selected).2 !! "grade"%string
    = Some [agentA; agentB] ∧
  rrIdx (Deregister "c" declared_selected).2 !! "grade"%string
    = rrIdx declared_selected !! "grade"%string.
Proof.
  apply (X7_Deregister_frame "c" declared_selected "grade"
           [agentA; agentB]).
  - apply reachable_declared_selected.
  - vm_compute. reflexivity.
  - intros a [->|[->|[]%elem_of_nil]%elem_of_cons]%elem_of_cons;
      vm_compute; discriminate.
Defined.

(** ** Select *)

(** X8: a Select that returns leaves the name index as it was, and the
    sequence and the cursor of every other task type; when it returns
    not found it changes nothing at all, and when the task type has a
    non-empty sequence it changes no sequence. *)
Theorem X8_Select_frame taskType order r res r' :
  Select taskType order r = Returned (res, r') →
  byName r' = byName r ∧
  (∀ t, t ≠ taskType →
        byType r' !! t = byType r !! t ∧ rrIdx r' !! t = rrIdx r !! t) ∧
  (res = None → r' = r) ∧
  (∀ lst, byType r !! taskType = Some lst → lst ≠ [] →
          byType r' = byType r).
Proof.
  intros Hsel. split; [|split; [|split]].
  - revert Hsel. unfold Select. case_decide; [case_decide|].
    + by intros [= <- <-].
    + by intros (a & c & _ & _ & _ & ->)%select_rr_inv.
    + by intros (a & c & _ & _ & _ & ->)%select_rr_inv.
  - intros t Hne. revert Hsel. unfold Select. case_decide; [case_decide|].
    + by intros [= <- <-].
    + intros (a & c & _ & _ & _ & ->)%select_rr_inv. simpl.
      by rewrite !lookup_insert_ne.
    + intros (a & c & _ & _ & _ & ->)%select_rr_inv. simpl.
      by rewrite lookup_insert_ne.
  - intros ->. revert Hsel. unfold Select. case_decide; [case_decide|].
    + by intros [= <-].
    + by intros (a & c & [=] & _)%select_rr_inv.
    + by intros (a & c & [=] & _)%select_rr_inv.
  - intros lst Ht Hne. by eapply Select_indexed_keeps_byType.
Qed.

Lemma X8_Select_frame_witness :
  byName undeclared_selected = byName undeclared ∧
  (∀ t, t ≠ "grade"%string →
        byType undeclared_selected !! t = byType undeclared !! t ∧
        rrIdx undeclared_selected !! t = rrIdx undeclared !! t) ∧
  (Some agentB = None → undeclared_selected = undeclared) ∧
  (∀ lst, byType undeclared !! "grade"%string = Some lst → lst ≠ [] →
          byType undeclared_selected = byType undeclared).
Proof.
  apply (X8_Select_frame "grade" ["b"; "a"]%string undeclared
           (Some agentB) undeclared_selected).
  vm_compute. reflexivity.
Defined.

Lemma scan_discovered r taskType order lst :
  foldl (scan_step r taskType) lst order = lst ++ discovered r taskType order.
Proof.
  unfold discovered. revert lst.
  induction order as [|k order IH]; intros lst.
  - by rewrite foldl_done, app_nil_r.
  - rewrite foldl_step, IH. unfold scan_step. simpl.
    destruct (byName r !! k) as [a|]; [|done].
    destruct (CanHandle a taskType); [|done].
    by rewrite <- app_assoc.
Qed.

Lemma discovered_elem_of r taskType order a :
  a ∈ discovered r taskType order ↔
  ∃ k, k ∈ order ∧ byName r !! k = Some a ∧ CanHandle a taskType = true.
Proof.
  unfold discovered. rewrite list_elem_of_omap. split.
  - intros (k & Hin & Hk). exists k. split; [done|].
    destruct (byName r !! k) as [b|]; [|done].
    destruct (CanHandle b taskType) eqn:Hc; [|done].
    by injection Hk as ->.
  - intros (k & Hin & Hk & Hc). exists k. split; [done|].
    by rewrite Hk, Hc.
Qed.

Lemma discovered_names_sublist r taskType order :
  (∀ n a, byName r !! n = Some a → Name a = n) →
  Name <$> discovered r taskType order `sublist_of` order.
Proof.
  intros Hkeyed. unfold discovered.
  induction order as [|k order IH]; [done|]. simpl.
  destruct (byName r !! k) as [a|] eqn:Hk; [|by apply sublist_cons].
  destruct (CanHandle a taskType); simpl; [|by apply sublist_cons].
  rewrite (Hkeyed _ _ Hk). by apply sublist_skip.
Qed.

(** X9: in a registry reached by completed calls, Select for a task type
    without sequence scans the name index: it caches the registered
    agents that accept the type, each once, in the order of the scan,
    returns the first of them and sets the cursor on the second (on the
    first again when there is only one). *)
Theorem X9_Select_fallback taskType order r a rest :
  reachable r → order ≡ₚ keys (byName r) →
  byType r !! taskType = None →
  discovered r taskType order = a :: rest →
  Select taskType order r =
    Returned (Some a,
              mkRegistry (byName r) (<[taskType := a :: rest]> (byType r))
                (<[taskType := Z.rem 1 (len (a :: rest))]> (rrIdx r))) ∧
  NoDup (Name <$> a :: rest) ∧
  ∀ x, x ∈ a :: rest ↔
       Get (Name x) r = Some x ∧ CanHandle x taskType = true.
Proof.
  intros Hc%reachable_consistent Hp Ht Hd.
  pose proof (consistent_names_keyed r Hc) as Hkeyed.
  split; [|split].
  - assert (agentsOf (byType r) taskType = []) as Hnone
      by (unfold agentsOf; by rewrite Ht).
    assert (cursor (rrIdx r) taskType = 0) as Hcur0.
    { unfold cursor.
      destruct (rrIdx r !! taskType) as [c|] eqn:Hcur; [|done].
      destruct (consistent_cursor r Hc _ _ Hcur) as (? & ? & _).
      congruence. }
    assert (len (a :: rest) ≠ 0) as Hlen by (unfold len; simpl; lia).
    unfold Select. rewrite Hnone.
    rewrite decide_True by done.
    rewrite scan_discovered, Hd, app_nil_l.
    rewrite decide_False by done.
    unfold select_rr. cbn [rrIdx]. rewrite Hcur0.
    rewrite Z.rem_0_l by done.
    by rewrite decide_True.
  - rewrite <- Hd. eapply sublist_NoDup; [by eapply order_NoDup|].
    by apply discovered_names_sublist.
  - intros x. rewrite <- Hd, discovered_elem_of. unfold Get. split.
    + intros (k & _ & Hk & Hcan). by rewrite (Hkeyed _ _ Hk).
    + intros [Hx Hcan]. exists (Name x). split; [|done].
      apply (elem_of_order _ _ _ Hp). by eexists.
Qed.

Lemma X9_Select_fallback_witness :
  Select "grade" ["b"; "a"]%string undeclared =
    Returned (Some agentB,
              mkRegistry (byName undeclared)
                (<["grade"%string := [agentB; agentA]]> (byType undeclared))
                (<["grade"%string := Z.rem 1 (len [agentB; agentA])]>
                   (rrIdx undeclared))) ∧
  NoDup (Name <$> [agentB; agentA]) ∧
  ∀ x, x ∈ [agentB; agentA] ↔
       Get (Name x) undeclared = Some x ∧ CanHandle x "grade" = true.
Proof.
  apply (X9_Select_fallback "grade" ["b"; "a"]%string undeclared
           agentB [agentA]).
  - apply reachable_undeclared.
  - assert (keys (byName undeclared) = ["a"; "b"]%string) as ->
      by (vm_compute; reflexivity).
    apply perm_swap.
  - vm_compute. reflexivity.
  - vm_compute. reflexivity.
Defined.

(** ** Round robin *)

Lemma SelectMany_step taskType order orders r res r1 rest r2 :
  Select taskType order r = Returned (res, r1) →
  SelectMany taskType orders r1 = Returned (rest, r2) →
  SelectMany taskType (order :: orders) r = Returned (res :: rest, r2).
Proof. intros H1 H2. simpl. rewrite H1. simpl. by rewrite H2. Qed.

Lemma mod_add_self (c n : nat) : (c < n)%nat → ((c + n) mod n = c)%nat.
Proof.
  intros Hc. replace (c + n)%nat with (c + 1 * n)%nat by lia.
  rewrite Nat.Div0.mod_add. by apply Nat.mod_small.
Qed.

Lemma SelectMany_indexed taskType orders r lst c :
  byType r !! taskType = Some lst →
  cursor (rrIdx r) taskType = Z.of_nat c → (c < length lst)%nat →
  SelectMany taskType orders r =
    Returned
      ((λ j, lst !! ((c + j) mod length lst)%nat) <$> seq 0 (length orders),
       match orders with
       | [] => r
       | _ :: _ =>
           mkRegistry (byName r) (byType r)
             (<[taskType := Z.of_nat ((c + length orders) mod length lst)]>
                (rrIdx r))
       end).
Proof.
  intros Ht. revert r c Ht.
  induction orders as [|order orders IH]; intros r c Ht Hcur Hc; [done|].
  destruct (lookup_lt_is_Some_2 lst c Hc) as [a Ha].
  pose proof (Select_indexed taskType order r lst (Z.of_nat c) a Ht Hcur)
    as Hsel.
  rewrite Nat2Z.id in Hsel. specialize (Hsel ltac:(lia) Ha).
  assert (Z.rem (Z.of_nat c + 1) (len lst)
          = Z.of_nat (S c mod length lst)) as Hnext.
  { unfold len. rewrite Z.rem_mod_nonneg by lia.
    rewrite Nat2Z.inj_mod. f_equal. lia. }
  rewrite Hnext in Hsel.
  set (r1 := mkRegistry (byName r) (byType r)
               (<[taskType := Z.of_nat (S c mod length lst)]> (rrIdx r)))
    in Hsel.
  erewrite SelectMany_step;
    [|exact Hsel|apply (IH r1 (S c mod length lst)%nat)].
  - f_equal. f_equal.
    + cbn [length seq fmap list_fmap]. f_equal.
      { by rewrite Nat.add_0_r, Nat.mod_small. }
      rewrite <- fmap_S_seq, <- list_fmap_compose.
      apply list_fmap_ext. intros _ j _. simpl. f_equal.
      rewrite Nat.Div0.add_mod_idemp_l. f_equal. lia.
    + destruct orders as [|order' orders'].
      * unfold r1. do 2 f_equal. cbn [length]. by rewrite Nat.add_1_r.
      * unfold r1. cbn [byName byType rrIdx]. rewrite insert_insert_eq.
        do 2 f_equal. rewrite Nat.Div0.add_mod_idemp_l.
        cbn [length]. do 2 f_equal. lia.
  - done.
  - unfold cursor, r1. cbn [rrIdx]. by rewrite lookup_insert_eq.
  - apply Nat.mod_upper_bound. lia.
Qed.

Lemma consistent_cursor_bound r t lst :
  consistent r → byType r !! t = Some lst →
  0 ≤ cursor (rrIdx r) t < len lst.
Proof.
  intros Hc Ht. unfold cursor.
  destruct (rrIdx r !! t) as [z|] eqn:Hz; simpl.
  - destruct (consistent_cursor r Hc _ _ Hz) as (lst' & Ht' & ?).
    by assert (lst' = lst) as -> by congruence.
  - pose proof (consistent_nonempty r Hc _ _ Ht).
    unfold len. destruct lst; [done|]. simpl. lia.
Qed.

(** X10: in a registry reached by completed calls, successive Selects
    for a task type that has a sequence return its agents in the order
    of the sequence, starting under the cursor and going round from the
    last agent to the first; the calls change nothing but the cursor of
    the type, which advances by one per call, whatever the orders of the
    scans. *)
Theorem X10_round_robin taskType orders r lst :
  reachable r → byType r !! taskType = Some lst →
  let n := length lst in
  let c := Z.to_nat (cursor (rrIdx r) taskType) in
  SelectMany taskType orders r =
    Returned
      ((λ j, lst !! ((c + j) mod n)%nat) <$> seq 0 (length orders),
       match orders with
       | [] => r
       | _ :: _ =>
           mkRegistry (byName r) (byType r)
             (<[taskType := Z.of_nat ((c + length orders) mod n)]> (rrIdx r))
       end).
Proof.
  intros Hc%reachable_consistent Ht n c.
  pose proof (consistent_cursor_bound r taskType lst Hc Ht) as Hb.
  apply SelectMany_indexed; [done|subst c; lia|].
  subst c n. unfold len in Hb. lia.
Qed.

Lemma X10_round_robin_witness :
  SelectMany "grade" [["a"]; []; ["b"; "a"]]%string declared_selected =
    Returned
      ([Some agentB; Some agentA; Some agentB],
       mkRegistry (byName declared_selected) (byType declared_selected)
         (<["grade"%string := 0]> (rrIdx declared_selected))).
Proof.
  apply (X10_round_robin "grade" [["a"]; []; ["b"; "a"]]%string
           declared_selected [agentA; agentB]).
  - apply reachable_declared_selected.
  - vm_compute. reflexivity.
Defined.

Lemma round_lookups {A} (lst : list A) (c : nat) :
  (c < length lst)%nat →
  (λ j, lst !! ((c + j) mod length lst)%nat) <$> seq 0 (length lst)
  = Some <$> (drop c lst ++ take c lst).
Proof.
  intros Hc. apply list_eq. intros i.
  rewrite !list_lookup_fmap.
  destruct (decide (i < length lst)%nat) as [Hi|Hi].
  - rewrite lookup_seq_lt by done. simpl.
    destruct (decide (i < length lst - c)%nat) as [Hlo|Hhi].
    + rewrite lookup_app_l by (rewrite length_drop; lia).
      rewrite lookup_drop, Nat.mod_small by lia.
      destruct (lookup_lt_is_Some_2 lst (c + i)) as [x ->]; [lia|done].
    + rewrite lookup_app_r by (rewrite length_drop; lia).
      rewrite length_drop, lookup_take_lt by lia.
      replace ((c + i) mod length lst)%nat with (i - (length lst - c))%nat.
      * destruct (lookup_lt_is_Some_2 lst (i - (length lst - c)))
          as [x ->]; [lia|done].
      * replace (c + i)%nat
          with ((i - (length lst - c)) + length lst)%nat by lia.
        rewrite mod_add_self; lia.
  - rewrite lookup_seq_ge by lia. simpl.
    rewrite lookup_ge_None_2; [done|].
    rewrite length_app, length_drop, length_take. lia.
Qed.

(** X11: in a registry reached by completed calls, as many successive
    Selects as the sequence of a task type has agents return every agent
    of the sequence exactly once (those from the cursor to the end, then
    those before the cursor) and leave the registry as it was, the
    cursor written back at its value. *)
Theorem X11_full_round taskType orders r lst :
  reachable r → byType r !! taskType = Some lst →
  length orders = length lst →
  let c := Z.to_nat (cursor (rrIdx r) taskType) in
  SelectMany taskType orders r =
    Returned (Some <$> (drop c lst ++ take c lst),
              mkRegistry (byName r) (byType r)
                (<[taskType := cursor (rrIdx r) taskType]> (rrIdx r))) ∧
  drop c lst ++ take c lst ≡ₚ lst.
Proof.
  intros Hr Ht Hlen c.
  pose proof (reachable_consistent r Hr) as Hc.
  pose proof (consistent_cursor_bound r taskType lst Hc Ht) as Hb.
  assert (c < length lst)%nat as Hclt by (subst c; unfold len in Hb; lia).
  split; [|rewrite Permutation_app_comm; by rewrite take_drop].
  rewrite (SelectMany_indexed taskType orders r lst c Ht)
    by (done || subst c; lia).
  rewrite Hlen, round_lookups, mod_add_self by done.
  destruct orders as [|order orders]; [simpl in Hlen; lia|].
  do 4 f_equal. subst c. lia.
Qed.

Lemma X11_full_round_witness :
  SelectMany "grade" [["a"]; ["b"; "a"]]%string declared_selected =
    Returned ([Some agentB; Some agentA],
              mkRegistry (byName declared_selected)
                (byType declared_selected)
                (<["grade"%string := 1]> (rrIdx declared_selected))) ∧
  [agentB; agentA] ≡ₚ [agentA; agentB].
Proof.
  apply (X11_full_round "grade" [["a"]; ["b"; "a"]]%string
           declared_selected [agentA; agentB]).
  - apply reachable_declared_selected.
  - vm_compute. reflexivity.
  - reflexivity.
Defined.

(** ** Distinct names *)

Lemma distinct_exec op r r' :
  consistent r → distinct_index r → order_ok op r →
  exec op r = Returned r' → distinct_index r'.
Proof.
  intros Hc Hd Hok. destruct op as [a ts|name|n|t order|order]; simpl.
  - intros [= <-].
    destruct (Register_cases a ts r)
      as [[_ [msg ->]]|(a' & -> & Hn & Hfree & _)]; [done|].
    intros t lst. rewrite Register_byType by done. case_decide as Hdec.
    + intros [= <-]. rewrite sortByName_perm, fmap_app. simpl.
      apply NoDup_app. split; [|split; [|apply NoDup_singleton]].
      * unfold agentsOf. destruct (byType r !! t) as [l0|] eqn:Ht; simpl.
        -- by eapply Hd.
        -- apply NoDup_nil_2.
      * intros n [x [-> Hx]]%list_elem_of_fmap Hin.
        apply list_elem_of_singleton in Hin.
        unfold agentsOf in Hx.
        destruct (byType r !! t) as [l0|] eqn:Ht; simpl in Hx;
          [|by apply elem_of_nil in Hx].
        pose proof (consistent_registered r Hc t l0 x Ht Hx) as Hreg.
        rewrite Hin in Hreg. congruence.
    + destruct (byType r !! t) as [l0|] eqn:Ht; [|done].
      intros [= <-]. rewrite sortByName_perm. by eapply Hd.
  - intros [= <-].
    destruct (byName r !! name) as [b|] eqn:Hb;
      [|by rewrite Deregister_absent].
    destruct (Deregister_present name r) as (_ & _ & Et & _); [by eexists|].
    intros t nl. rewrite Et, dereg_seq_Some. intros (lst & Ht & -> & _).
    eapply sublist_NoDup; [by eapply Hd|].
    apply fmap_sublist, sublist_filter.
  - by intros [= <-].
  - destruct (Select t order r) as [[res r1]|] eqn:Hsel; [|done].
    intros [= <-]. revert Hsel. unfold Select.
    case_decide as Hz; [case_decide as Hz'|].
    + by intros [= _ <-].
    + intros (a & c & _ & _ & _ & ->)%select_rr_inv.
      intros t' lst. simpl. rewrite lookup_insert. case_decide; [|by apply Hd].
      intros [= <-]. apply len_zero_nil in Hz.
      rewrite scan_discovered, Hz, app_nil_l.
      eapply sublist_NoDup; [by eapply order_NoDup|].
      apply discovered_names_sublist, Hc.
    + by intros (a & c & _ & _ & _ & ->)%select_rr_inv.
  - by intros [= <-].
Qed.

Lemma reachable_distinct r : reachable r → distinct_index r.
Proof.
  induction 1 as [|op r r' Hr IH Hok Hex].
  - intros t lst. simpl. by rewrite lookup_empty.
  - eapply distinct_exec; [by apply reachable_consistent|done..].
Qed.

(** X12: in a registry reached by completed calls, Get returns under a
    name only an agent of that name, and no capability sequence holds two
    agents of the same name: every agent has one place in the rotation of
    a task type. *)
Theorem X12_names_unique r :
  reachable r →
  (∀ n a, Get n r = Some a → Name a = n) ∧
  (∀ t lst, byType r !! t = Some lst → NoDup (Name <$> lst)).
Proof.
  intros Hr. split.
  - apply consistent_names_keyed. by apply reachable_consistent.
  - by apply reachable_distinct.
Qed.

Lemma X12_names_unique_witness :
  (∀ n a, Get n declared_selected = Some a → Name a = n) ∧
  (∀ t lst, byType declared_selected !! t = Some lst →
            NoDup (Name <$> lst)).
Proof.
  apply (X12_names_unique declared_selected).
  apply reachable_declared_selected.
Defined.

(** ** Sorted sequences *)

(** X13: a Register that returns no error leaves every capability
    sequence in ascending order of names, also the sequences that a
    fallback scan of Select had cached in another order. *)
Theorem X13_Register_sorts a taskTypes r :
  (Register a taskTypes r).1 = None →
  ∀ t lst, byType (Register a taskTypes r).2 !! t = Some lst →
           sortedByName lst.
Proof.
  destruct (Register_cases a taskTypes r)
    as [[_ [msg ->]]|(a' & -> & Hn & Hfree & _)]; [done|].
  intros _. by apply Register_sorts_index.
Qed.

Lemma X13_Register_sorts_witness :
  byType undeclared_selected !! "grade"%string = Some [agentB; agentA] ∧
  byType (Register (Some agentC) [] undeclared_selected).2 !! "grade"%string
    = Some [agentA; agentB] ∧
  sortedByName [agentA; agentB].
Proof.
  split; [vm_compute; reflexivity|].
  split; [vm_compute; reflexivity|].
  apply (X13_Register_sorts (Some agentC) [] undeclared_selected)
    with (t := "grade"%string); vm_compute; reflexivity.
Defined.

(** X14: Deregister keeps sorted what is sorted: when every capability
    sequence is in ascending order of names before the call, every
    sequence is so after it. *)
Theorem X14_Deregister_keeps_sorted name r :
  sorted_index r → sorted_index (Deregister name r).2.
Proof. apply Deregister_keeps_sorted. Qed.

Lemma declared_selected_sorted : sorted_index declared_selected.
Proof.
  intros t lst Ht.
  assert (byType declared_selected = byType declared) as E
    by (vm_compute; reflexivity).
  rewrite E in Ht. revert t lst Ht.
  apply (Register_keeps_sorted (Some agentB) ["grade"%string]).
  apply (Register_keeps_sorted (Some agentA) ["grade"%string]).
  intros t lst. simpl. by rewrite lookup_empty.
Qed.

Lemma X14_Deregister_keeps_sorted_witness :
  sorted_index (Deregister "a" declared_selected).2.
Proof.
  apply (X14_Deregister_keeps_sorted "a" declared_selected).
  apply declared_selected_sorted.
Defined.

(** ** Register undone by Deregister *)

Lemma Registry_eq r1 r2 :
  byName r1 = byName r2 → byType r1 = byType r2 → rrIdx r1 = rrIdx r2 →
  r1 = r2.
Proof. destruct r1, r2. simpl. by intros -> -> ->. Qed.

Lemma removeNamed_other name lst :
  (∀ x, x ∈ lst → Name x ≠ name) → removeNamed name lst = lst.
Proof. intros H. by apply filter_all_id. Qed.

(** Taking the new agent out of the sorted sequence it was appended to
    gives back a sorted sequence of distinct names without it. *)
Lemma removeNamed_sort_snoc a lst :
  sortedByName lst → NoDup (Name <$> lst) →
  (∀ x, x ∈ lst → Name x ≠ Name a) →
  removeNamed (Name a) (sortByName (lst ++ [a])) = lst.
Proof.
  intros Hs Hnd Hother. symmetry.
  apply sorted_perm_unique; [done..| |].
  - apply removeNamed_sorted, sortByName_sorted.
  - unfold removeNamed. rewrite sortByName_perm, filter_app.
    rewrite filter_cons_False by (intros Hx; by apply Hx).
    rewrite filter_nil, app_nil_r.
    by rewrite (filter_all_id _ lst).
Qed.

(** X15: in a registry reached by completed calls whose capability
    sequences are in ascending order of names, a Register that returns no
    error followed by Deregister of the name of the agent returns true
    and gives back the registry as it was before the Register: the name
    index, every sequence and every cursor. *)
Theorem X15_Register_then_Deregister a taskTypes r :
  reachable r → sorted_index r →
  (Register (Some a) taskTypes r).1 = None →
  Deregister (Name a) (Register (Some a) taskTypes r).2 = (true, r).
Proof.
  intros Hr Hsorted.
  pose proof (reachable_consistent r Hr) as Hc.
  pose proof (reachable_distinct r Hr) as Hd.
  destruct (Register_cases (Some a) taskTypes r)
    as [[_ [msg ->]]|(a' & [= <-] & Hn & Hfree & E)]; [done|].
  intros _.
  set (r1 := (Register (Some a) taskTypes r).2).
  assert (byName r1 = <[Name a := a]> (byName r)) as En1
    by (unfold r1; by rewrite E).
  assert (rrIdx r1 = rrIdx r) as Ei1 by (unfold r1; by rewrite E).
  destruct (Deregister_present (Name a) r1) as (Hok & En & Et & Ei).
  { rewrite En1, lookup_insert_eq. by eexists. }
  assert (Hother : ∀ t x, x ∈ agentsOf (byType r) t → Name x ≠ Name a).
  { intros t x. unfold agentsOf.
    destruct (byType r !! t) as [l0|] eqn:Ht; simpl;
      [|by intros ?%elem_of_nil].
    intros Hx Heq.
    pose proof (consistent_registered r Hc t l0 x Ht Hx) as Hreg.
    rewrite Heq in Hreg. congruence. }
  assert (Hs0 : ∀ t, sortedByName (agentsOf (byType r) t)).
  { intros t. unfold agentsOf.
    destruct (byType r !! t) as [l0|] eqn:Ht; simpl; [by eapply Hsorted|].
    constructor. }
  assert (Hd0 : ∀ t, NoDup (Name <$> agentsOf (byType r) t)).
  { intros t. unfold agentsOf.
    destruct (byType r !! t) as [l0|] eqn:Ht; simpl; [by eapply Hd|].
    apply NoDup_nil_2. }
  assert (Hnil : ∀ t, agentsOf (byType r) t = [] → byType r !! t = None).
  { intros t. unfold agentsOf.
    destruct (byType r !! t) as [l0|] eqn:Ht; simpl; [|done].
    intros ->. by destruct (consistent_nonempty r Hc t [] Ht). }
  assert (Hseq : ∀ t,
            match byType r1 !! t with
            | Some l1 => removeNamed (Name a) l1 = agentsOf (byType r) t
            | None => byType r !! t = None
            end).
  { intros t. unfold r1. rewrite Register_byType by done.
    case_decide as Hdec.
    - apply removeNamed_sort_snoc; [apply Hs0|apply Hd0|apply Hother].
    - destruct (byType r !! t) as [l0|] eqn:Ht; simpl; [|done].
      rewrite sortByName_sorted_id by (by eapply Hsorted).
      unfold agentsOf. rewrite Ht. simpl.
      apply removeNamed_other. intros x Hx. apply (Hother t).
      unfold agentsOf. by rewrite Ht. }
  destruct (Deregister (Name a) r1) as [ok r2] eqn:Hdereg.
  simpl in Hok, En, Et, Ei. f_equal; [done|].
  apply Registry_eq.
  - rewrite En, En1, delete_insert_eq. by apply delete_id.
  - apply map_eq. intros t. rewrite Et. specialize (Hseq t).
    unfold dereg_seq. destruct (byType r1 !! t) as [l1|]; [|done].
    rewrite Hseq. case_decide as Hz.
    + apply len_zero_nil in Hz. symmetry. by apply Hnil.
    + unfold agentsOf in *. destruct (byType r !! t); [done|].
      by destruct Hz.
  - apply map_eq. intros t. rewrite Ei, Ei1. specialize (Hseq t).
    unfold dereg_cur. destruct (byType r1 !! t) as [l1|]; [|done].
    rewrite Hseq. case_decide as Hz.
    + apply len_zero_nil, Hnil in Hz.
      destruct (rrIdx r !! t) as [c|] eqn:Hcur; [|done].
      destruct (consistent_cursor r Hc t c Hcur) as (? & ? & _). congruence.
    + case_decide as Hle; [|done]. exfalso.
      unfold agentsOf in *. destruct (byType r !! t) as [l0|] eqn:Ht;
        [|by destruct Hz].
      pose proof (consistent_cursor_bound r t l0 Hc Ht) as Hb.
      unfold cursor in Hb. simpl in Hle. lia.
Qed.

Lemma X15_Register_then_Deregister_witness :
  Deregister (Name agentC)
    (Register (Some agentC) ["grade"; "notify"]%string declared_selected).2
  = (true, declared_selected).
Proof.
  apply (X15_Register_then_Deregister agentC ["grade"; "notify"]%string
           declared_selected).
  - apply reachable_declared_selected.
  - apply declared_selected_sorted.
  - vm_compute. reflexivity.
Defined.

(** ** Who can be selected *)

Lemma Select_registered r taskType order a r' :
  consistent r → Select taskType order r = Returned (Some a, r') →
  byName r !! Name a = Some a.
Proof.
  intros Hc. unfold Select.
  set (lst0 := agentsOf (byType r) taskType).
  case_decide as Hz; [case_decide as Hz'; [done|]|].
  - intros (a' & c & [= <-] & Ha & _)%select_rr_inv.
    apply len_zero_nil in Hz. rewrite scan_discovered, Hz, app_nil_l in Ha.
    apply discovered_elem_of in Ha as (k & _ & Hk & _).
    by rewrite (consistent_names_keyed r Hc k a Hk).
  - intros (a' & c & [= <-] & Ha & _)%select_rr_inv.
    subst lst0. unfold agentsOf in *.
    destruct (byType r !! taskType) as [lst|] eqn:Ht; [|by destruct Hz].
    by eapply consistent_registered.
Qed.

(** X16: in a registry reached by completed calls, an agent that Select
    returns is registered: Get finds that very agent under its name. *)
Theorem X16_selected_is_registered r taskType order a r' :
  reachable r → Select taskType order r = Returned (Some a, r') →
  Get (Name a) r = Some a.
Proof.
  intros Hc%reachable_consistent. by apply Select_registered.
Qed.

Lemma X16_selected_is_registered_witness :
  Get (Name agentB) undeclared = Some agentB.
Proof.
  apply (X16_selected_is_registered undeclared "grade" ["b"; "a"]%string
           agentB undeclared_selected).
  - apply reachable_undeclared.
  - vm_compute. reflexivity.
Defined.

(** X17: in a registry reached by completed calls, a Select that follows
    Deregister of a name returns no agent of that name, for any task type
    and whether or not the name was registered. *)
Theorem X17_deregistered_not_selected name r taskType order a r' :
  reachable r →
  Select taskType order (Deregister name r).2 = Returned (Some a, r') →
  Name a ≠ name.
Proof.
  intros Hr Hsel Heq.
  pose proof (reachable_consistent _ (reachable_Deregister name r Hr)) as Hc.
  pose proof (Select_registered _ _ _ _ _ Hc Hsel) as Hreg.
  rewrite Heq in Hreg.
  destruct (byName r !! name) as [b|] eqn:Hb.
  - destruct (Deregister_present name r) as (_ & En & _); [by eexists|].
    by rewrite En, lookup_delete_eq in Hreg.
  - rewrite Deregister_absent in Hreg by done. simpl in Hreg. congruence.
Qed.

Lemma X17_deregistered_not_selected_witness : Name agentB ≠ "a"%string.
Proof.
  apply (X17_deregistered_not_selected "a" declared_selected "grade"
           ["b"]%string agentB
           (mkRegistry (byName (Deregister "a" declared_selected).2)
              (byType (Deregister "a" declared_selected).2)
              (<["grade"%string := 0]>
                 (rrIdx (Deregister "a" declared_selected).2)))).
  - apply reachable_declared_selected.
  - vm_compute. reflexivity.
Defined.

(** X18: in a registry reached by completed calls, an agent registered
    without naming a task type that already has a sequence is not
    returned by any later Select for that type, however many follow,
    although it may accept the type: the sequence is not rebuilt. *)
Theorem X18_undeclared_not_selected a taskTypes r taskType lst orders res r' :
  reachable r → byType r !! taskType = Some lst →
  (Register (Some a) taskTypes r).1 = None → taskType ∉ taskTypes →
  SelectMany taskType orders (Register (Some a) taskTypes r).2
    = Returned (res, r') →
  Some a ∉ res.
Proof.
  intros Hr Ht Hok Hnot Hmany Hin.
  pose proof (reachable_consistent r Hr) as Hc.
  destruct (Register_cases (Some a) taskTypes r)
    as [[_ [msg E]]|(a' & [= <-] & Hn & Hfree & E)];
    [by rewrite E in Hok|].
  set (r1 := (Register (Some a) taskTypes r).2) in *.
  assert (byType r1 !! taskType = Some (sortByName lst)) as Ht1.
  { unfold r1. rewrite Register_byType by done.
    rewrite decide_False by tauto. by rewrite Ht. }
  pose proof (reachable_consistent _
                (reachable_Register (Some a) taskTypes r Hr)) as Hc1.
  fold r1 in Hc1.
  pose proof (consistent_cursor_bound r1 taskType _ Hc1 Ht1) as Hb.
  rewrite (SelectMany_indexed taskType orders r1 (sortByName lst)
             (Z.to_nat (cursor (rrIdx r1) taskType)) Ht1) in Hmany
    by (unfold len in Hb; lia).
  injection Hmany as <- _.
  apply list_elem_of_fmap in Hin as (j & Hj & _). symmetry in Hj.
  apply list_elem_of_lookup_2 in Hj. rewrite sortByName_elem_of in Hj.
  pose proof (consistent_registered r Hc _ _ _ Ht Hj). congruence.
Qed.

Lemma X18_undeclared_not_selected_witness :
  Some agentB ∉ [Some agentA; Some agentA].
Proof.
  apply (X18_undeclared_not_selected agentB [] solo "grade" [agentA]
           [[]; ["a"; "b"]]%string [Some agentA; Some agentA]
           (mkRegistry (byName (Register (Some agentB) [] solo).2)
              (byType (Register (Some agentB) [] solo).2)
              (<["grade"%string := 0]>
                 (rrIdx (Register (Some agentB) [] solo).2)))).
  - apply reachable_Register, reachable_new.
  - vm_compute. reflexivity.
  - vm_compute. reflexivity.
  - apply not_elem_of_nil.
  - vm_compute. reflexivity.
Defined.

(** ** The order of the range loops *)

(** X19: the loop of Register that sorts the capability sequences gives
    the same index in whatever order the range visits the task types:
    every sequence sorted, the keys as they were. *)
Theorem X19_sort_loop_order bt order :
  order ≡ₚ keys bt →
  sort_loop bt order = sort_loop bt (keys bt) ∧
  ∀ t, sort_loop bt order !! t = sortByName <$> bt !! t.
Proof.
  intros Hp. rewrite !sort_loop_any_order by done.
  split; [done|]. intros t. apply lookup_fmap.
Qed.

Lemma X19_sort_loop_order_witness :
  sort_loop (byType two_types) ["notify"; "grade"]%string
    = sort_loop (byType two_types) (keys (byType two_types)) ∧
  ∀ t, sort_loop (byType two_types) ["notify"; "grade"]%string !! t
       = sortByName <$> byType two_types !! t.
Proof.
  apply (X19_sort_loop_order (byType two_types) ["notify"; "grade"]%string).
  assert (keys (byType two_types) = ["grade"; "notify"]%string) as ->
    by (vm_compute; reflexivity).
  apply perm_swap.
Defined.

(** X20: the loop of Deregister over the capability index gives the same
    sequences and cursors in whatever order the range visits the task
    types. *)
Theorem X20_deregister_loop_order name bt rr order :
  order ≡ₚ keys bt →
  deregister_loop name (bt, rr) order
    = deregister_loop name (bt, rr) (keys bt).
Proof. apply deregister_loop_any_order. Qed.

Lemma X20_deregister_loop_order_witness :
  deregister_loop "c" (byType two_types, rrIdx two_types)
    ["notify"; "grade"]%string
  = deregister_loop "c" (byType two_types, rrIdx two_types)
      (keys (byType two_types)).
Proof.
  apply (X20_deregister_loop_order "c" (byType two_types) (rrIdx two_types)
           ["notify"; "grade"]%string).
  assert (keys (byType two_types) = ["grade"; "notify"]%string) as ->
    by (vm_compute; reflexivity).
  apply perm_swap.
Defined.

(** ** The rotation after a removal *)

Lemma removeNamed_middle l1 a l2 :
  NoDup (Name <$> l1 ++ a :: l2) → removeNamed (Name a) (l1 ++ a :: l2) = l1 ++ l2.
Proof.
  intros Hnd. rewrite fmap_app, fmap_cons in Hnd.
  apply NoDup_app in Hnd as (_ & Hl1 & [Hl2 _]%NoDup_cons).
  unfold removeNamed. rewrite filter_app, filter_cons_False
    by (intros Hx; by apply Hx).
  rewrite !filter_all_id; [done| |].
  - intros x Hx Heq. apply Hl2. rewrite <- Heq.
    apply list_elem_of_fmap. by exists x.
  - intros x Hx Heq. apply (Hl1 (Name x)).
    + apply list_elem_of_fmap. by exists x.
    + rewrite Heq. by left.
Qed.

(** X21: in a registry reached by completed calls, after Deregister of an
    agent of a sequence that stays non-empty, the next Select for the
    task type returns the agent of the shortened sequence at the old
    cursor, or its first agent when the old cursor is past its end.  The
    cursor is not moved back: when the removed agent stood before the
    cursor and the cursor stays in range, the agent returned is the one
    after the agent that was due. *)
Theorem X21_Select_after_Deregister r taskType l1 a l2 order :
  reachable r → byType r !! taskType = Some (l1 ++ a :: l2) →
  l1 ++ l2 ≠ [] →
  let c := Z.to_nat (cursor (rrIdx r) taskType) in
  let c' := if decide (c < length (l1 ++ l2))%nat then c else 0%nat in
  (∃ x r', (l1 ++ l2) !! c' = Some x ∧
           Select taskType order (Deregister (Name a) r).2
             = Returned (Some x, r')) ∧
  ((length l1 < c < length (l1 ++ l2))%nat →
   (l1 ++ l2) !! c' = (l1 ++ a :: l2) !! S c).
Proof.
  intros Hr Ht Hne c c'.
  pose proof (reachable_consistent r Hr) as Hc.
  pose proof (reachable_distinct r Hr _ _ Ht) as Hnd.
  pose proof (consistent_cursor_bound r _ _ Hc Ht) as Hb.
  assert (is_Some (byName r !! Name a)) as Hreg.
  { exists a. eapply consistent_registered; [done..|].
    apply elem_of_app. right. by left. }
  destruct (Deregister_present (Name a) r Hreg) as (_ & _ & Et & Ei).
  specialize (Et taskType). specialize (Ei taskType).
  rewrite Ht in Et, Ei. unfold dereg_seq in Et. unfold dereg_cur in Ei.
  rewrite removeNamed_middle in Et, Ei by done.
  rewrite decide_False in Et by (by rewrite len_zero_nil).
  rewrite decide_False in Ei by (by rewrite len_zero_nil).
  fold (cursor (rrIdx r) taskType) in Ei.
  assert (cursor (rrIdx (Deregister (Name a) r).2) taskType = Z.of_nat c')
    as Hcur.
  { unfold cursor at 1. rewrite Ei. subst c' c. unfold len in *.
    repeat case_decide; simpl; try lia.
    fold (cursor (rrIdx r) taskType). lia. }
  assert (c' < length (l1 ++ l2))%nat as Hlt.
  { subst c'. case_decide; [done|]. destruct (l1 ++ l2); [done|].
    simpl. lia. }
  split.
  - destruct (lookup_lt_is_Some_2 _ _ Hlt) as [x Hx].
    exists x. eexists. split; [done|].
    apply (Select_indexed _ _ _ _ _ _ Et Hcur); [lia|].
    by rewrite Nat2Z.id.
  - intros [Hlo Hhi]. subst c'. rewrite decide_True by done.
    rewrite !lookup_app_r by lia.
    replace (S c - length l1)%nat with (S (c - length l1)) by lia. done.
Qed.

Lemma reachable_three_selected : reachable three_selected.
Proof.
  apply (reachable_Select "grade" (keys (byName three)) three (Some agentA)).
  - apply reachable_Register, reachable_declared.
  - done.
  - vm_compute. reflexivity.
Qed.

(** With the cursor on "b", Deregister of "a" makes the next Select
    return "c": "b" is passed over. *)
Lemma X21_Select_after_Deregister_witness :
  (∃ x r', [agentB; agentC] !! 1%nat = Some x ∧
           Select "grade" []
             (Deregister (Name agentA) three_selected).2
             = Returned (Some x, r')) ∧
  [agentB; agentC] !! 1%nat = [agentA; agentB; agentC] !! 2%nat.
Proof.
  destruct (X21_Select_after_Deregister three_selected "grade" [] agentA
              [agentB; agentC] []) as [Hsel Hskip].
  - apply reachable_three_selected.
  - vm_compute. reflexivity.
  - discriminate.
  - split; [exact Hsel|]. apply Hskip. vm_compute. split; lia.
Defined.
